(** * ditto: an in-memory key-value store with change notifications

    A shallow embedding of [C/src/ditto.c] (public interface in
    [C/include/ditto.h]) and the properties of its keyed store and of its
    notification registry.

    Conventions of the embedding.
    - A pointer argument that the code tests against [NULL] and then
      dereferences is an [option]: [None] is [NULL], [Some x] points to [x].
      A function that writes through such a pointer returns the new pointee.
    - Opaque pointers that the code only stores, compares with [NULL] and
      passes on (the callback and its [user_data]) are addresses in [Z],
      [NULL] being [0].
    - A C string argument is the list of bytes found at the pointer; the
      string ends at the first NUL byte or at the end of the list, where the
      terminator sits.
    - The pair [(data, len)] of [ditto_put] is the list of the [len] bytes at
      [data]; sizes ([size_t]) are [nat], no arithmetic is done on them.
    - [int32_t] and [uint32_t] values are in [Z], wrap-around written out.
    - The two mutexes are not modelled: calls are run one after the other.
    - Allocation ([malloc], [calloc], [strdup]) and the invocation of a
      subscriber's callback are the two effects; they live in the monad [M]
      over a [world]. A callback is an external call: the model records it
      and assumes it does not call back into the store.
    - [next_sub_id++] at [INT32_MAX] is a signed overflow, undefined in
      ISO C; the model takes the two's-complement result. *)

From Stdlib Require Import ZArith List Lia.
From Stdlib.Strings Require Import Byte.
From stdpp Require Import base tactics option list.

Local Open Scope Z_scope.

(** ** Machine integers *)

Definition wrap_uint32 (z : Z) : Z := z mod 2 ^ 32.

(** Two's-complement reduction to [int32_t]. *)
Definition wrap_int32 (z : Z) : Z := (z + 2 ^ 31) mod 2 ^ 32 - 2 ^ 31.

Definition INT32_MAX : Z := 2 ^ 31 - 1.
Definition INT32_MIN : Z := - 2 ^ 31.

Definition ptr := Z.
Definition NULL : ptr := 0.

(** ** Constants of ditto.c *)

Definition MAX_SUBSCRIPTIONS : nat := 100.
Definition HASH_SIZE : Z := 256.

(** ** C strings *)

#[global] Instance byte_eq_dec : EqDecision byte := Byte.byte_eq_dec.

(** The value of a [char] read as an [unsigned char]. *)
Definition uchar (c : byte) : Z := Z.of_N (Byte.to_N c).

(** [int c = *str]: the value of a plain [char], which is signed on some
    targets and unsigned on others. *)
Definition char_to_int (char_signed : bool) (c : byte) : Z :=
  if char_signed && (128 <=? uchar c) then uchar c - 256 else uchar c.

(** The characters of a C string, terminator excluded. *)
Fixpoint c_str (s : list byte) : list byte :=
  match s with
  | [] => []
  | c :: s' => if uchar c =? 0 then [] else c :: c_str s'
  end.

(** [strcmp]: the difference of the first two differing characters, read as
    [unsigned char]; [0] when both strings end together. *)
Fixpoint strcmp (s1 s2 : list byte) : Z :=
  match s1, s2 with
  | [], [] => 0
  | [], c2 :: _ => 0 - uchar c2
  | c1 :: _, [] => uchar c1 - 0
  | c1 :: s1', c2 :: s2' =>
      if uchar c1 =? uchar c2
      then if uchar c1 =? 0 then 0 else strcmp s1' s2'
      else uchar c1 - uchar c2
  end.

Definition strdup (s : list byte) : list byte := c_str s.

(** [memcpy (dst, src, n)]: the first [n] bytes of [dst] are replaced by the
    first [n] bytes of [src]. The caller owns at least [n] bytes at [dst]. *)
Definition memcpy (dst src : list byte) (n : nat) : list byte :=
  take n src ++ drop n dst.

(** ** Effects: allocation outcomes and callback invocations *)

(** One invocation [callback (user_data, key)]. [call_sub] is an annotation
    of the log, not an argument of the call: the id of the slot the call is
    made for. *)
Record call := Call {
  call_sub : Z;
  call_callback : ptr;
  call_user_data : ptr;
  call_key : list byte
}.

(** [allocs] lists the outcomes of the coming allocation requests ([true]:
    memory is returned, [false]: [NULL]); requests past the end of the list
    succeed. [calls] is the log of the callbacks invoked so far. *)
Record world := World {
  allocs : list bool;
  calls : list call
}.

Definition M (A : Type) : Type := world -> A * world.

Definition ret {A} (a : A) : M A := fun w => (a, w).

Definition bind {A B} (m : M A) (k : A -> M B) : M B :=
  fun w => let (a, w') := m w in k a w'.

Notation "x <~ m ;; k" := (bind m (fun x => k))
  (at level 100, m at next level, right associativity).
Notation "m ;;; k" := (bind m (fun _ => k))
  (at level 100, right associativity).

(** One allocation request; [true] when it returns memory. *)
Definition alloc : M bool :=
  fun w =>
    match allocs w with
    | [] => (true, w)
    | ok :: rest => (ok, World rest (calls w))
    end.

(** The external call [cb (user_data, key)], made for the slot of id [sub]. *)
Definition invoke (sub : Z) (cb user_data : ptr) (key : list byte) : M unit :=
  fun w => (tt, World (allocs w) (calls w ++ [Call sub cb user_data key])).

(** ** Internal data structures *)

(** [kv_entry_t]; the [next] link is the tail of the chain the entry is in. *)
Record kv_entry_t := Entry {
  entry_key : list byte;
  entry_data : list byte;
  entry_len : nat
}.

(** [hash_table_t]: [HASH_SIZE] chain heads. *)
Record hash_table_t := Table {
  buckets : list (list kv_entry_t)
}.

Record subscription_t := Subscription {
  sub_id : Z;
  sub_callback : ptr;
  sub_user_data : ptr;
  sub_active : Z
}.

(** [struct ditto_db]; [subscriptions] has [MAX_SUBSCRIPTIONS] slots. *)
Record ditto_db := Db {
  table : hash_table_t;
  subscriptions : list subscription_t;
  next_sub_id : Z
}.

(** ** Hash table *)

(** The loop of [hash_string], [hash] being the accumulator. *)
Fixpoint hash_loop (char_signed : bool) (str : list byte) (hash : Z) : Z :=
  match str with
  | [] => hash
  | ch :: str' =>
      let c := char_to_int char_signed ch in
      if c =? 0 then hash
      else hash_loop char_signed str'
             (wrap_uint32 (wrap_uint32 (wrap_uint32 (Z.shiftl hash 5) + hash) + c))
  end.

Definition hash_string_on (char_signed : bool) (str : list byte) : Z :=
  hash_loop char_signed str 5381 mod HASH_SIZE.

(** The bucket index does not depend on the signedness of [char]
    ([hash_string_signedness] below), so the model fixes it. *)
Definition hash_string (str : list byte) : Z := hash_string_on false str.

(** [table->buckets[idx]] *)
Definition bucket (t : hash_table_t) (idx : Z) : list kv_entry_t :=
  default [] (buckets t !! Z.to_nat idx).

(** [table->buckets[idx] = chain] *)
Definition set_bucket (t : hash_table_t) (idx : Z) (chain : list kv_entry_t)
  : hash_table_t :=
  Table (<[Z.to_nat idx := chain]> (buckets t)).

(** [calloc] of the table: every chain head is [NULL]. *)
Definition hash_table_create : M (option hash_table_t) :=
  ok <~ alloc ;;
  if ok then ret (Some (Table (replicate (Z.to_nat HASH_SIZE) [])))
  else ret None.

(** The scan of a chain by [hash_table_put]. *)
Inductive put_scan :=
| PutUpdated (chain : list kv_entry_t)
| PutNoMemory
| PutAbsent.

Fixpoint put_chain (entry : list kv_entry_t) (key data : list byte)
  : M put_scan :=
  match entry with
  | [] => ret PutAbsent
  | e :: next =>
      if strcmp (entry_key e) key =? 0 then
        new_data <~ alloc ;;
        if negb new_data then ret PutNoMemory
        else ret (PutUpdated (Entry (entry_key e) data (length data) :: next))
      else
        r <~ put_chain next key data ;;
        match r with
        | PutUpdated next' => ret (PutUpdated (e :: next'))
        | PutNoMemory => ret PutNoMemory
        | PutAbsent => ret PutAbsent
        end
  end.

Definition hash_table_put (t : hash_table_t) (key data : list byte)
  : M (Z * hash_table_t) :=
  let idx := hash_string key in
  r <~ put_chain (bucket t idx) key data ;;
  match r with
  | PutUpdated chain => ret (0, set_bucket t idx chain)
  | PutNoMemory => ret (-1, t)
  | PutAbsent =>
      entry <~ alloc ;;
      if negb entry then ret (-1, t)
      else
        entry_key <~ alloc ;;
        entry_data <~ alloc ;;
        if negb entry_key || negb entry_data then ret (-1, t)
        else
          ret (0, set_bucket t idx
                    (Entry (strdup key) data (length data) :: bucket t idx))
  end.

(** The loop of [hash_table_get]; the result is the status, the destination
    buffer and the value at [inout_len] on return. *)
Fixpoint get_chain (entry : list kv_entry_t) (key : list byte)
    (out_buf : option (list byte)) (inout_len : nat)
  : Z * option (list byte) * nat :=
  match entry with
  | [] => (2, out_buf, inout_len)
  | e :: next =>
      if strcmp (entry_key e) key =? 0 then
        match out_buf with
        | None => (1, None, entry_len e)
        | Some buf =>
            if (inout_len <? entry_len e)%nat then (1, Some buf, entry_len e)
            else (0, Some (memcpy buf (entry_data e) (entry_len e)), entry_len e)
        end
      else get_chain next key out_buf inout_len
  end.

Definition hash_table_get (t : hash_table_t) (key : list byte)
    (out_buf : option (list byte)) (inout_len : nat)
  : Z * option (list byte) * nat :=
  get_chain (bucket t (hash_string key)) key out_buf inout_len.

(** The loop of [hash_table_delete]: the chain without the first entry of
    that key, or [None] when there is none. *)
Fixpoint delete_chain (entry : list kv_entry_t) (key : list byte)
  : option (list kv_entry_t) :=
  match entry with
  | [] => None
  | e :: next =>
      if strcmp (entry_key e) key =? 0 then Some next
      else
        match delete_chain next key with
        | Some next' => Some (e :: next')
        | None => None
        end
  end.

Definition hash_table_delete (t : hash_table_t) (key : list byte)
  : Z * hash_table_t :=
  let idx := hash_string key in
  match delete_chain (bucket t idx) key with
  | Some chain => (0, set_bucket t idx chain)
  | None => (2, t)
  end.

(** ** Subscription management *)

(** The loop of [notify_subscribers] over the slots, in slot order. *)
Fixpoint notify_loop (subs : list subscription_t) (key : list byte) : M unit :=
  match subs with
  | [] => ret tt
  | sub :: rest =>
      (if negb (sub_active sub =? 0) then
         if negb (sub_callback sub =? NULL)
         then invoke (sub_id sub) (sub_callback sub) (sub_user_data sub) key
         else ret tt
       else ret tt) ;;;
      notify_loop rest key
  end.

Definition notify_subscribers (db : ditto_db) (key : list byte) : M unit :=
  notify_loop (subscriptions db) key.

(** ** Public API *)

(** A slot as [calloc] leaves it. *)
Definition zero_subscription : subscription_t := Subscription 0 NULL NULL 0.

Definition deactivate (s : subscription_t) : subscription_t :=
  Subscription (sub_id s) (sub_callback s) (sub_user_data s) 0.

Definition ditto_open (path : option (list byte))
    (out_db : option (option ditto_db))
  : M (Z * option (option ditto_db)) :=
  match path, out_db with
  | Some _, Some _ =>
      db <~ alloc ;;
      if negb db then ret (-1, out_db)
      else
        t <~ hash_table_create ;;
        match t with
        | None => ret (-1, out_db)
        | Some t =>
            let subs := replicate MAX_SUBSCRIPTIONS zero_subscription in
            ret (0, Some (Some (Db t (deactivate <$> subs) 1)))
        end
  | _, _ => ret (-1, out_db)
  end.

Definition ditto_put (db : option ditto_db) (key data : option (list byte))
  : M (Z * option ditto_db) :=
  match db, key, data with
  | Some d, Some k, Some v =>
      r <~ hash_table_put (table d) k v ;;
      let d' := Db (snd r) (subscriptions d) (next_sub_id d) in
      let rc := fst r in
      (if rc =? 0 then notify_subscribers d' k else ret tt) ;;;
      ret (rc, Some d')
  | _, _, _ => ret (-1, db)
  end.

(** [ditto_get] changes neither the store nor the world; it returns the
    status, the destination buffer and the value at [inout_len]. *)
Definition ditto_get (db : option ditto_db) (key : option (list byte))
    (out_buf : option (list byte)) (inout_len : option nat)
  : Z * option (list byte) * option nat :=
  match db, key, inout_len with
  | Some d, Some k, Some n =>
      let '(rc, buf, n') := hash_table_get (table d) k out_buf n in
      (rc, buf, Some n')
  | _, _, _ => (-1, out_buf, inout_len)
  end.

Definition ditto_delete (db : option ditto_db) (key : option (list byte))
  : M (Z * option ditto_db) :=
  match db, key with
  | Some d, Some k =>
      let r := hash_table_delete (table d) k in
      let d' := Db (snd r) (subscriptions d) (next_sub_id d) in
      let rc := fst r in
      (if rc =? 0 then notify_subscribers d' k else ret tt) ;;;
      ret (rc, Some d')
  | _, _ => ret (-1, db)
  end.

(** [ditto_subscribe] returns the status, the store and the value at
    [out_sub_id]. The first inactive slot is taken; [next_sub_id++] is an
    [int32_t] increment. *)
Definition ditto_subscribe (db : option ditto_db) (cb user_data : ptr)
    (out_sub_id : option Z)
  : Z * option ditto_db * option Z :=
  match db, out_sub_id with
  | Some d, Some _ =>
      if cb =? NULL then (-1, db, out_sub_id)
      else
        match list_find (fun s => sub_active s = 0) (subscriptions d) with
        | Some (i, _) =>
            let id := next_sub_id d in
            let slot := Subscription id cb user_data 1 in
            (0,
             Some (Db (table d) (<[i := slot]> (subscriptions d))
                      (wrap_int32 (id + 1))),
             Some id)
        | None => (-1, db, out_sub_id)
        end
  | _, _ => (-1, db, out_sub_id)
  end.

(** [ditto_unsubscribe] clears the first active slot that carries [id]. *)
Definition ditto_unsubscribe (db : option ditto_db) (id : Z)
  : Z * option ditto_db :=
  match db with
  | Some d =>
      match list_find (fun s => sub_active s <> 0 /\ sub_id s = id)
                      (subscriptions d) with
      | Some (i, s) =>
          let slot := Subscription (sub_id s) NULL NULL 0 in
          (0, Some (Db (table d) (<[i := slot]> (subscriptions d))
                       (next_sub_id d)))
      | None => (-1, db)
      end
  | None => (-1, db)
  end.

(** ** Stores that the API can produce *)

(** The store that a successful [ditto_open] hands out. *)
Definition fresh_db : ditto_db :=
  Db (Table (replicate (Z.to_nat HASH_SIZE) []))
     (replicate MAX_SUBSCRIPTIONS zero_subscription) 1.

Inductive reachable : ditto_db -> Prop :=
| reach_open path out w db w' :
    ditto_open path out w = ((0, Some (Some db)), w') -> reachable db
| reach_put db key data w rc db' w' :
    reachable db ->
    ditto_put (Some db) key data w = ((rc, Some db'), w') -> reachable db'
| reach_delete db key w rc db' w' :
    reachable db ->
    ditto_delete (Some db) key w = ((rc, Some db'), w') -> reachable db'
| reach_subscribe db cb user_data out rc db' out' :
    reachable db ->
    ditto_subscribe (Some db) cb user_data out = (rc, Some db', out') ->
    reachable db'
| reach_unsubscribe db id rc db' :
    reachable db ->
    ditto_unsubscribe (Some db) id = (rc, Some db') -> reachable db'.

(** ** Notions used by the statements *)

(** The call that a fan-out makes for a slot. *)
Definition call_of (key : list byte) (s : subscription_t) : call :=
  Call (sub_id s) (sub_callback s) (sub_user_data s) key.

(** The currently-active subscriptions, in slot order. *)
Definition active_subs (db : ditto_db) : list subscription_t :=
  filter (fun s => sub_active s <> 0) (subscriptions db).

(** [e] is an entry of the table whose key is the C string [key]. *)
Definition live (db : ditto_db) (key : list byte) (e : kv_entry_t) : Prop :=
  exists (idx : nat) (chain : list kv_entry_t),
    buckets (table db) !! idx = Some chain /\
    e ∈ chain /\ strcmp (entry_key e) key = 0.

(** Every pending allocation request will be served. *)
Definition no_alloc_failure (w : world) : Prop :=
  Forall (fun ok => ok = true) (allocs w).

(** The outcomes of the allocation requests that a call made, [w] being the
    world before the call and [w'] the one after: the outcomes that the
    call took off the list. A request made once the list is empty is served
    and leaves no outcome. *)
Definition requested (w w' : world) : list bool :=
  take (length (allocs w) - length (allocs w')) (allocs w).

(** The entry a scan for [key] stops at: the first one of that key. *)
Fixpoint chain_find (chain : list kv_entry_t) (key : list byte)
  : option kv_entry_t :=
  match chain with
  | [] => None
  | e :: next =>
      if strcmp (entry_key e) key =? 0 then Some e else chain_find next key
  end.

(** A chain of bucket [idx]: its entries hash to [idx], record the length of
    their value, and no two of them have the same key. *)
Fixpoint chain_wf (idx : Z) (chain : list kv_entry_t) : Prop :=
  match chain with
  | [] => True
  | e :: next =>
      hash_string (entry_key e) = idx /\
      entry_len e = length (entry_data e) /\
      Forall (fun e' => strcmp (entry_key e') (entry_key e) <> 0) next /\
      chain_wf idx next
  end.

Definition table_wf (t : hash_table_t) : Prop :=
  length (buckets t) = Z.to_nat HASH_SIZE /\
  forall (idx : nat) (chain : list kv_entry_t),
    buckets t !! idx = Some chain -> chain_wf (Z.of_nat idx) chain.

(** The slot table has its [MAX_SUBSCRIPTIONS] slots and an active slot has
    a callback. *)
Definition subs_wf (db : ditto_db) : Prop :=
  length (subscriptions db) = MAX_SUBSCRIPTIONS /\
  Forall (fun s => sub_active s <> 0 -> sub_callback s <> NULL)
         (subscriptions db).

Definition db_wf (db : ditto_db) : Prop := table_wf (table db) /\ subs_wf db.

(** The calls of one fan-out: one per active subscription, in slot order. *)
Definition fan_out (db : ditto_db) (key : list byte) : list call :=
  call_of key <$> active_subs db.

(** ** Sequences of API calls *)

Inductive api_call :=
| Put (key data : option (list byte))
| Get (key : option (list byte)) (out_buf : option (list byte))
      (inout_len : option nat)
| Delete (key : option (list byte))
| Subscribe (cb user_data : ptr) (out_sub_id : option Z)
| Unsubscribe (id : Z).

(** One call on the store [db]; [ids] collects, oldest first, the ids that
    the successful subscribes have handed out. *)
Definition api_step (c : api_call) (st : ditto_db * list Z)
  : M (ditto_db * list Z) :=
  let (db, ids) := st in
  match c with
  | Put key data =>
      r <~ ditto_put (Some db) key data ;;
      ret (default db (snd r), ids)
  | Get key out_buf inout_len =>
      let _ := ditto_get (Some db) key out_buf inout_len in ret (db, ids)
  | Delete key =>
      r <~ ditto_delete (Some db) key ;;
      ret (default db (snd r), ids)
  | Subscribe cb user_data out_sub_id =>
      let '(rc, db', out) := ditto_subscribe (Some db) cb user_data out_sub_id in
      ret (default db db',
           if rc =? 0 then ids ++ option_list out else ids)
  | Unsubscribe id =>
      let (rc, db') := ditto_unsubscribe (Some db) id in
      ret (default db db', ids)
  end.

Fixpoint run_api (cs : list api_call) (st : ditto_db * list Z)
  : M (ditto_db * list Z) :=
  match cs with
  | [] => ret st
  | c :: cs' => st' <~ api_step c st ;; run_api cs' st'
  end.

(** [c] is a put of the C string [K]. *)
Definition puts_key (K : list byte) (c : api_call) : Prop :=
  match c with
  | Put (Some k) _ => strcmp k K = 0
  | _ => False
  end.

(** [subscribe] called once per request [(cb, user_data)], in order; the
    statuses and the final store. *)
Fixpoint subscribe_all (reqs : list (ptr * ptr)) (db : option ditto_db)
  : list Z * option ditto_db :=
  match reqs with
  | [] => ([], db)
  | (cb, user_data) :: reqs' =>
      let '(rc, db', _) := ditto_subscribe db cb user_data (Some 0) in
      let (rcs, db'') := subscribe_all reqs' db' in
      (rc :: rcs, db'')
  end.

(** One subscription taken and released at once. *)
Definition churn (db : ditto_db) : ditto_db :=
  let '(_, db1, out) := ditto_subscribe (Some db) 1 NULL (Some 0) in
  let (_, db2) := ditto_unsubscribe db1 (default 0 out) in
  default db db2.

(** The store after [n] rounds of [churn] on a fresh store, while the
    counter has not wrapped: slot 0 carries the last id and is free. *)
Definition churned_db (n : Z) : ditto_db :=
  Db (table fresh_db)
     (Subscription n NULL NULL 0 ::
      replicate (MAX_SUBSCRIPTIONS - 1) zero_subscription)
     (1 + n).

(** The store in which a first subscription, of callback [7] and context
    [9], holds slot 0 under the id [1] while [n >= 1] further subscriptions
    have been taken and released at once: slot 1 carries the last of their
    ids and is free. *)
Definition held_db (n : Z) : ditto_db :=
  Db (table fresh_db)
     (Subscription 1 7 9 1 :: Subscription (wrap_int32 (1 + n)) NULL NULL 0 ::
      replicate (MAX_SUBSCRIPTIONS - 2) zero_subscription)
     (wrap_int32 (2 + n)).

(** The registry after the ids [ids] have been handed out, oldest first,
    and while the counter has not wrapped: the [i]-th id is [i + 1], the
    counter holds the next one, and the active subscriptions carry distinct
    ids among those handed out. *)
Definition registry_inv (db : ditto_db) (ids : list Z) : Prop :=
  (forall (i : nat) (id : Z), ids !! i = Some id -> id = Z.of_nat i + 1) /\
  (Z.of_nat (length ids) < INT32_MAX ->
   next_sub_id db = Z.of_nat (length ids) + 1) /\
  Forall (fun s => 1 <= sub_id s <= Z.of_nat (length ids)) (active_subs db) /\
  NoDup (sub_id <$> active_subs db).

(** [S] is the id of exactly one active subscription. *)
Definition names_one_subscription (db : ditto_db) (S : Z) : Prop :=
  length (filter (fun s => sub_id s = S) (active_subs db)) = 1%nat.

(** ** Notions used by the further properties *)

(** The hash that the comment in [hash_string] names, [hash * 33 + c] from
    [5381], over the unbounded integers. *)
Definition djb2 (char_signed : bool) (s : list byte) : Z :=
  fold_left (fun hash ch => hash * 33 + char_to_int char_signed ch) s 5381.

(** [c] is a put or a delete of the C string [K]. *)
Definition touches_key (K : list byte) (c : api_call) : Prop :=
  match c with
  | Put (Some k) _ => strcmp k K = 0
  | Delete (Some k) => strcmp k K = 0
  | _ => False
  end.

(** [c] is a call on the registry. *)
Definition registry_call (c : api_call) : Prop :=
  match c with
  | Subscribe _ _ _ | Unsubscribe _ => True
  | _ => False
  end.

(** [c] is a call that can change the table. *)
Definition table_call (c : api_call) : Prop :=
  match c with
  | Put _ _ | Delete _ => True
  | _ => False
  end.


(** The number of entries that the table holds, all chains together. *)
Definition entry_count (db : ditto_db) : nat :=
  length (concat (buckets (table db))).

(** * Properties *)

(** ** Lists of slots and of entries *)

Section Lists.
Context {A : Type} (P : A -> Prop) `{!forall x, Decision (P x)}.

Lemma filter_middle (l : list A) i x :
  l !! i = Some x ->
  filter P l = filter P (take i l) ++ filter P [x] ++ filter P (drop (S i) l).
Proof.
  intros Hl. rewrite <- (take_drop_middle l i x Hl) at 1.
  rewrite filter_app, !filter_cons. by destruct (decide (P x)).
Qed.

Lemma filter_insert_middle (l : list A) i x y :
  l !! i = Some x ->
  filter P (<[i:=y]> l) =
  filter P (take i l) ++ filter P [y] ++ filter P (drop (S i) l).
Proof.
  intros Hl. rewrite insert_take_drop by by eapply lookup_lt_Some.
  rewrite filter_app, !filter_cons. by destruct (decide (P y)).
Qed.

Lemma filter_all (l : list A) : Forall P l -> filter P l = l.
Proof.
  induction 1 as [|x l Hx _ IH]; [done|].
  by rewrite filter_cons, decide_True, IH.
Qed.

Lemma filter_nil_Forall (l : list A) :
  filter P l = [] -> Forall (fun x => ~ P x) l.
Proof.
  intros Hnil. apply Forall_forall. intros x Hin HP.
  assert (Hx : x ∈ filter P l) by (by apply list_elem_of_filter).
  rewrite Hnil in Hx. by apply elem_of_nil in Hx.
Qed.

Lemma list_find_head (x : A) (l : list A) :
  P x -> list_find P (x :: l) = Some (0%nat, x).
Proof. intros HP. cbn [list_find]. by rewrite decide_True. Qed.

Lemma list_find_next (x y : A) (l : list A) :
  ~ P x -> P y -> list_find P (x :: y :: l) = Some (1%nat, y).
Proof.
  intros Hx Hy. cbn [list_find]. by rewrite decide_False, decide_True.
Qed.

Lemma NoDup_insert_middle (l1 l2 : list A) x :
  NoDup (l1 ++ x :: l2) <-> (x ∉ l1 ++ l2) /\ NoDup (l1 ++ l2).
Proof.
  rewrite <- (Permutation_middle l1 l2 x). apply NoDup_cons.
Qed.
End Lists.

(** ** C strings and the hash *)

Lemma uchar_range c : 0 <= uchar c < 256.
Proof.
  unfold uchar. pose proof (Byte.to_N_bounded c) as H. lia.
Qed.

Lemma uchar_inj c1 c2 : uchar c1 = uchar c2 -> c1 = c2.
Proof.
  unfold uchar. intros H. apply N2Z.inj in H.
  pose proof (Byte.of_to_N c1) as H1. pose proof (Byte.of_to_N c2) as H2.
  rewrite H in H1. congruence.
Qed.

Lemma strcmp_0_iff s1 s2 : strcmp s1 s2 = 0 <-> c_str s1 = c_str s2.
Proof.
  revert s2. induction s1 as [|c1 s1 IH]; intros [|c2 s2]; simpl.
  - done.
  - pose proof (uchar_range c2). destruct (Z.eqb_spec (uchar c2) 0); split;
      intros; try done; lia.
  - pose proof (uchar_range c1). destruct (Z.eqb_spec (uchar c1) 0); split;
      intros; try done; lia.
  - destruct (Z.eqb_spec (uchar c1) (uchar c2)) as [Heq|Hne].
    + rewrite <- Heq. destruct (Z.eqb_spec (uchar c1) 0); [done|].
      apply uchar_inj in Heq. subst c2. rewrite IH. split; intros H.
      * by rewrite H.
      * by injection H.
    + destruct (Z.eqb_spec (uchar c1) 0), (Z.eqb_spec (uchar c2) 0);
        split; intros H; try lia; try done.
      injection H as H _. by subst.
Qed.

Lemma strcmp_refl s : strcmp s s = 0.
Proof. by apply strcmp_0_iff. Qed.

Lemma strcmp_sym s1 s2 : strcmp s1 s2 = 0 -> strcmp s2 s1 = 0.
Proof. rewrite !strcmp_0_iff. congruence. Qed.

Lemma strcmp_trans s1 s2 s3 :
  strcmp s1 s2 = 0 -> strcmp s2 s3 = 0 -> strcmp s1 s3 = 0.
Proof. rewrite !strcmp_0_iff. congruence. Qed.

Lemma c_str_idemp s : c_str (c_str s) = c_str s.
Proof.
  induction s as [|c s IH]; simpl; [done|].
  destruct (Z.eqb_spec (uchar c) 0) as [|Hne]; simpl; [done|].
  apply Z.eqb_neq in Hne. by rewrite Hne, IH.
Qed.

Lemma strcmp_strdup s : strcmp (strdup s) s = 0.
Proof. apply strcmp_0_iff. apply c_str_idemp. Qed.

Lemma char_to_int_unsigned c : char_to_int false c = uchar c.
Proof. done. Qed.

Lemma char_to_int_zero b c : char_to_int b c = 0 <-> uchar c = 0.
Proof.
  pose proof (uchar_range c). unfold char_to_int.
  destruct b; simpl; [|done].
  destruct (Z.leb_spec 128 (uchar c)); lia.
Qed.

Lemma hash_loop_c_str b s h : hash_loop b (c_str s) h = hash_loop b s h.
Proof.
  revert h. induction s as [|c s IH]; intros h; simpl; [done|].
  destruct (Z.eqb_spec (uchar c) 0) as [Hz|Hnz]; simpl.
  - apply (char_to_int_zero b) in Hz. by rewrite Hz.
  - destruct (Z.eqb_spec (char_to_int b c) 0) as [Hz|_]; [|apply IH].
    by apply char_to_int_zero in Hz.
Qed.

Lemma hash_string_strcmp s1 s2 :
  strcmp s1 s2 = 0 -> hash_string s1 = hash_string s2.
Proof.
  intros H%strcmp_0_iff. unfold hash_string, hash_string_on.
  by rewrite <- (hash_loop_c_str _ s1), <- (hash_loop_c_str _ s2), H.
Qed.

Lemma hash_string_range s : 0 <= hash_string s < HASH_SIZE.
Proof. unfold hash_string, hash_string_on, HASH_SIZE. apply Z.mod_pos_bound. lia. Qed.

Lemma mod_2_32_mod_256 z : (z mod 2 ^ 32) mod 256 = z mod 256.
Proof. apply Z.mod_mod_divide. exists (2 ^ 24). lia. Qed.

(** The accumulators of the loop under the two readings of [char] agree
    modulo [HASH_SIZE], which divides [2 ^ 32]. *)
Lemma hash_loop_signedness s h1 h2 :
  h1 mod 256 = h2 mod 256 ->
  hash_loop true s h1 mod 256 = hash_loop false s h2 mod 256.
Proof.
  revert h1 h2. induction s as [|c s IH]; intros h1 h2 Hh; simpl; [done|].
  pose proof (uchar_range c) as Hc.
  destruct (Z.eqb_spec (char_to_int true c) 0) as [Hz|Hnz].
  - apply char_to_int_zero in Hz. rewrite char_to_int_unsigned, Hz. done.
  - rewrite char_to_int_unsigned.
    destruct (Z.eqb_spec (uchar c) 0) as [Hz|_].
    { by apply (char_to_int_zero true) in Hz. }
    apply IH. unfold wrap_uint32. rewrite !Z.shiftl_mul_pow2 by lia.
    assert (Hs : char_to_int true c mod 256 = uchar c mod 256).
    { unfold char_to_int. simpl. destruct (Z.leb_spec 128 (uchar c)); [|done].
      replace (uchar c - 256) with (uchar c + (-1) * 256) by lia.
      apply Z.mod_add. lia. }
    rewrite !mod_2_32_mod_256.
    rewrite (Z.add_mod _ (char_to_int true c)), (Z.add_mod _ (uchar c)) by lia.
    rewrite !mod_2_32_mod_256, Hs. f_equal. f_equal.
    rewrite (Z.add_mod _ h1), (Z.add_mod _ h2) by lia.
    rewrite !mod_2_32_mod_256, Hh. f_equal. f_equal.
    rewrite (Z.mul_mod h1), (Z.mul_mod h2) by lia. by rewrite Hh.
Qed.

(** The bucket index is the same whether [char] is signed or not. *)
Lemma hash_string_signedness b s : hash_string_on b s = hash_string s.
Proof.
  destruct b; [|done]. unfold hash_string, hash_string_on, HASH_SIZE.
  by apply hash_loop_signedness.
Qed.

(** ** The monad *)

Lemma bind_eq {A B} (m : M A) (k : A -> M B) w a w' :
  m w = (a, w') -> bind m k w = k a w'.
Proof. unfold bind. by intros ->. Qed.

Lemma alloc_served w :
  no_alloc_failure w -> exists w', alloc w = (true, w') /\
    no_alloc_failure w' /\ calls w' = calls w.
Proof.
  unfold no_alloc_failure, alloc. intros H. destruct w as [[|ok rest] cs]; simpl in *.
  - eexists. split; [done|]. by split.
  - inversion H as [|? ? Hok Hrest]; subst. eexists. split; [done|]. by split.
Qed.

Lemma alloc_calls w ok w' : alloc w = (ok, w') -> calls w' = calls w.
Proof.
  unfold alloc. destruct (allocs w); intros [= <- <-]; done.
Qed.

(** ** Chains *)

Lemma chain_find_None chain key :
  chain_find chain key = None <->
  Forall (fun e => strcmp (entry_key e) key <> 0) chain.
Proof.
  induction chain as [|e next IH]; simpl.
  - split; [constructor | done].
  - destruct (Z.eqb_spec (strcmp (entry_key e) key) 0) as [Heq|Hne].
    + split; [done|]. intros H. inversion H; subst. done.
    + rewrite IH. split; [by constructor|]. intros H. by inversion H.
Qed.

Lemma chain_find_Some chain key e :
  chain_find chain key = Some e -> e ∈ chain /\ strcmp (entry_key e) key = 0.
Proof.
  induction chain as [|e' next IH]; simpl; [done|].
  destruct (Z.eqb_spec (strcmp (entry_key e') key) 0) as [Heq|Hne].
  - intros [= ->]. split; [left | done].
  - intros H. destruct (IH H). split; [by right | done].
Qed.

(** In a well-formed chain the entry of a key is the one a scan finds. *)
Lemma chain_find_unique idx chain key e :
  chain_wf idx chain -> e ∈ chain -> strcmp (entry_key e) key = 0 ->
  chain_find chain key = Some e.
Proof.
  induction chain as [|e' next IH]; simpl; intros Hwf Hin Hk.
  - by apply elem_of_nil in Hin.
  - destruct Hwf as (_ & _ & Hdistinct & Hwf).
    apply elem_of_cons in Hin as [->|Hin].
    + apply Z.eqb_eq in Hk. by rewrite Hk.
    + destruct (Z.eqb_spec (strcmp (entry_key e') key) 0) as [Heq|Hne];
        [|by apply IH].
      rewrite Forall_forall in Hdistinct. exfalso.
      apply (Hdistinct e Hin). apply strcmp_sym in Heq.
      by apply (strcmp_trans _ key).
Qed.

Lemma chain_wf_hash idx chain e :
  chain_wf idx chain -> e ∈ chain -> hash_string (entry_key e) = idx.
Proof.
  induction chain as [|e' next IH]; simpl; intros Hwf Hin.
  - by apply elem_of_nil in Hin.
  - destruct Hwf as (Hh & _ & _ & Hwf).
    apply elem_of_cons in Hin as [->|Hin]; [done | by apply IH].
Qed.

Lemma chain_wf_len idx chain e :
  chain_wf idx chain -> e ∈ chain -> entry_len e = length (entry_data e).
Proof.
  induction chain as [|e' next IH]; simpl; intros Hwf Hin.
  - by apply elem_of_nil in Hin.
  - destruct Hwf as (_ & Hl & _ & Hwf).
    apply elem_of_cons in Hin as [->|Hin]; [done | by apply IH].
Qed.

(** [get] acts on the entry the scan stops at. *)
Lemma get_chain_find chain key out_buf inout_len :
  get_chain chain key out_buf inout_len =
  match chain_find chain key with
  | None => (2, out_buf, inout_len)
  | Some e =>
      match out_buf with
      | None => (1, None, entry_len e)
      | Some buf =>
          if (inout_len <? entry_len e)%nat then (1, Some buf, entry_len e)
          else (0, Some (memcpy buf (entry_data e) (entry_len e)), entry_len e)
      end
  end.
Proof.
  induction chain as [|e next IH]; simpl; [done|].
  by destruct (strcmp (entry_key e) key =? 0).
Qed.

Lemma delete_chain_find chain key :
  delete_chain chain key = None <-> chain_find chain key = None.
Proof.
  induction chain as [|e next IH]; simpl; [done|].
  destruct (strcmp (entry_key e) key =? 0); [done|].
  destruct (delete_chain next key); [|tauto].
  split; [done|]. intros H. apply IH in H. done.
Qed.

Lemma delete_chain_sub chain key chain' e :
  delete_chain chain key = Some chain' -> e ∈ chain' -> e ∈ chain.
Proof.
  revert chain'. induction chain as [|e' next IH]; simpl; intros chain'; [done|].
  destruct (strcmp (entry_key e') key =? 0).
  - intros [= ->] Hin. by right.
  - destruct (delete_chain next key) as [next'|]; [|done].
    intros [= <-] Hin. apply elem_of_cons in Hin as [->|Hin]; [left|right].
    by apply (IH next').
Qed.

Lemma delete_chain_wf idx chain key chain' :
  chain_wf idx chain -> delete_chain chain key = Some chain' ->
  chain_wf idx chain' /\ chain_find chain' key = None.
Proof.
  revert chain'. induction chain as [|e next IH]; simpl; intros chain' Hwf; [done|].
  destruct Hwf as (Hh & Hl & Hdistinct & Hwf).
  destruct (Z.eqb_spec (strcmp (entry_key e) key) 0) as [Heq|Hne].
  - intros [= <-]. split; [done|]. apply chain_find_None.
    eapply Forall_impl; [exact Hdistinct|]. simpl. intros e' Hne Hk.
    apply Hne. apply strcmp_sym in Heq. by apply (strcmp_trans _ key).
  - destruct (delete_chain next key) as [next'|] eqn:Hdel; [|done].
    intros [= <-]. destruct (IH next' Hwf eq_refl) as [Hwf' Hnone].
    split.
    + simpl. repeat split; try done.
      rewrite Forall_forall in *. intros e' Hin. apply Hdistinct.
      by apply (delete_chain_sub next key next').
    + simpl. apply Z.eqb_neq in Hne. by rewrite Hne.
Qed.

(** What the scan of [hash_table_put] returns, case by case. *)
Lemma put_chain_cases chain key data w r w' :
  put_chain chain key data w = (r, w') ->
  calls w' = calls w /\
  match r with
  | PutAbsent => chain_find chain key = None
  | PutNoMemory => chain_find chain key <> None
  | PutUpdated chain' =>
      (exists e, chain_find chain key = Some e /\
         chain_find chain' key = Some (Entry (entry_key e) data (length data))) /\
      (forall idx, chain_wf idx chain -> chain_wf idx chain') /\
      entry_key <$> chain' = entry_key <$> chain
  end.
Proof.
  revert r w'. induction chain as [|e next IH]; simpl; intros r w'.
  - intros [= <- <-]. done.
  - destruct (Z.eqb_spec (strcmp (entry_key e) key) 0) as [Heq|Hne].
    + unfold bind. destruct (alloc w) as [ok w1] eqn:Ha.
      apply alloc_calls in Ha. destruct ok; simpl; intros [= <- <-].
      * split; [done|]. split; [|split; [|done]].
        -- exists e. split; [done|]. simpl. apply Z.eqb_eq in Heq. by rewrite Heq.
        -- intros idx (Hh & Hl & Hd & Hwf). simpl. done.
      * done.
    + unfold bind. destruct (put_chain next key data w) as [r1 w1] eqn:Hp.
      destruct (IH _ _ eq_refl) as [Hc Hr].
      destruct r1 as [next'| |]; intros [= <- <-]; (split; [done|]); [|done..].
      destruct Hr as ((e0 & Hf & Hf') & Hwf & Hkeys).
      split; [|split].
      * exists e0. split; [done|]. simpl. apply Z.eqb_neq in Hne. by rewrite Hne.
      * intros idx (Hh & Hl & Hd & Hw). simpl. repeat split; try done; [|by apply Hwf].
        rewrite Forall_forall in *. intros e' Hin.
        assert (Hk : entry_key e' ∈ entry_key <$> next').
        { apply list_elem_of_fmap. by exists e'. }
        rewrite Hkeys in Hk. apply list_elem_of_fmap in Hk as (e'' & -> & Hin'').
        by apply Hd.
      * rewrite !fmap_cons. by rewrite Hkeys.
Qed.

(** With memory available the scan does not fail. *)
Lemma put_chain_served chain key data w :
  no_alloc_failure w ->
  exists r w', put_chain chain key data w = (r, w') /\
    r <> PutNoMemory /\ no_alloc_failure w'.
Proof.
  intros Hw. induction chain as [|e next IH]; simpl.
  - by exists PutAbsent, w.
  - destruct (strcmp (entry_key e) key =? 0).
    + destruct (alloc_served w Hw) as (w1 & Ha & Hw1 & _).
      unfold bind. rewrite Ha. simpl. by eexists _, _.
    + destruct IH as (r & w1 & Hp & Hr & Hw1). unfold bind. rewrite Hp.
      destruct r; [by eexists _, _ | done | by eexists _, _].
Qed.

(** ** The table *)

Lemma bucket_set_bucket t idx chain :
  (Z.to_nat idx < length (buckets t))%nat ->
  bucket (set_bucket t idx chain) idx = chain.
Proof.
  intros H. unfold bucket, set_bucket. simpl.
  by rewrite list_lookup_insert_eq.
Qed.

Lemma bucket_wf t idx :
  table_wf t -> 0 <= idx -> chain_wf idx (bucket t idx).
Proof.
  intros [_ Hwf] Hidx. unfold bucket.
  destruct (buckets t !! Z.to_nat idx) as [chain|] eqn:Hl; simpl; [|done].
  apply Hwf in Hl. by rewrite Z2Nat.id in Hl.
Qed.

Lemma set_bucket_wf t idx chain :
  table_wf t -> 0 <= idx -> chain_wf idx chain ->
  table_wf (set_bucket t idx chain).
Proof.
  intros [Hlen Hwf] Hidx Hc. split; simpl.
  - by rewrite length_insert.
  - intros i c Hl. destruct (decide (i = Z.to_nat idx)) as [->|Hne].
    + apply list_lookup_insert_Some in Hl as [(_ & <- & _)|[? _]]; [|done].
      by rewrite Z2Nat.id.
    + rewrite list_lookup_insert_ne in Hl by done. by apply Hwf.
Qed.

Lemma hash_index_in_table t key :
  length (buckets t) = Z.to_nat HASH_SIZE ->
  (Z.to_nat (hash_string key) < length (buckets t))%nat.
Proof.
  intros ->. pose proof (hash_string_range key). lia.
Qed.

(** [hash_table_put]: the status is [0] or [-1]; on [-1] the table is the
    one passed in; on [0] the scan for the key finds the new value. *)
Lemma hash_table_put_spec t key data w rc t' w' :
  hash_table_put t key data w = ((rc, t'), w') ->
  calls w' = calls w /\
  (rc = 0 \/ rc = -1) /\
  (rc <> 0 -> t' = t) /\
  (rc = 0 -> length (buckets t) = Z.to_nat HASH_SIZE ->
     exists k, chain_find (bucket t' (hash_string key)) key =
               Some (Entry k data (length data))) /\
  (rc = 0 -> table_wf t -> table_wf t').
Proof.
  unfold hash_table_put, bind.
  destruct (put_chain _ key data w) as [r w1] eqn:Hp.
  destruct (put_chain_cases _ _ _ _ _ _ Hp) as [Hc Hr].
  pose proof (hash_string_range key) as Hrange.
  destruct r as [chain'| |].
  - intros [= <- <- <-]. destruct Hr as ((e & Hf & Hf') & Hwf & _).
    split; [done|]. split; [by left|]. split; [done|]. split.
    + intros _ Hlen. exists (entry_key e).
      by rewrite bucket_set_bucket by by apply hash_index_in_table.
    + intros _ Ht. apply set_bucket_wf; [done | lia |].
      apply Hwf. apply bucket_wf; [done | lia].
  - intros [= <- <- <-]. split; [done|]. split; [by right|]. done.
  - destruct (alloc w1) as [ok1 w2] eqn:Ha1. apply alloc_calls in Ha1.
    destruct ok1; simpl; [|intros [= <- <- <-]; split; [congruence|];
                           split; [by right|]; done].
    destruct (alloc w2) as [ok2 w3] eqn:Ha2. apply alloc_calls in Ha2.
    destruct (alloc w3) as [ok3 w4] eqn:Ha3. apply alloc_calls in Ha3.
    destruct ok2, ok3; simpl; intros [= <- <- <-];
      (split; [congruence|]); try (split; [by right|]; done).
    split; [by left|]. split; [done|]. split.
    + intros _ Hlen. exists (strdup key).
      rewrite bucket_set_bucket by by apply hash_index_in_table.
      simpl. by rewrite strcmp_strdup.
    + intros _ Ht. apply set_bucket_wf; [done | lia |]. simpl.
      split; [by apply hash_string_strcmp, strcmp_strdup|].
      split; [done|]. split; [|apply bucket_wf; [done | lia]].
      apply chain_find_None in Hr. eapply Forall_impl; [exact Hr|].
      simpl. intros e Hne Hk. apply Hne.
      apply (strcmp_trans _ (strdup key)); [done | apply strcmp_strdup].
Qed.

(** With memory available [hash_table_put] returns [0]. *)
Lemma hash_table_put_served t key data w :
  no_alloc_failure w ->
  exists t' w', hash_table_put t key data w = ((0, t'), w') /\
    no_alloc_failure w'.
Proof.
  intros Hw. unfold hash_table_put, bind.
  destruct (put_chain_served (bucket t (hash_string key)) key data w Hw)
    as (r & w1 & -> & Hr & Hw1).
  destruct r as [chain'| |]; [by eexists _, _ | done |].
  destruct (alloc_served w1 Hw1) as (w2 & -> & Hw2 & _). simpl.
  destruct (alloc_served w2 Hw2) as (w3 & -> & Hw3 & _).
  destruct (alloc_served w3 Hw3) as (w4 & -> & Hw4 & _).
  simpl. by eexists _, _.
Qed.

(** [hash_table_delete]: the status is [0] or [2]; on [2] the table is the
    one passed in; on [0] no entry of the key is left in its chain. *)
Lemma hash_table_delete_spec t key rc t' :
  hash_table_delete t key = (rc, t') ->
  (rc = 0 \/ rc = 2) /\
  (rc <> 0 -> t' = t) /\
  (rc = 2 <-> chain_find (bucket t (hash_string key)) key = None) /\
  (rc = 0 -> table_wf t ->
     table_wf t' /\ chain_find (bucket t' (hash_string key)) key = None).
Proof.
  unfold hash_table_delete. pose proof (hash_string_range key) as Hrange.
  destruct (delete_chain _ key) as [chain'|] eqn:Hd; intros [= <- <-].
  - split; [by left|]. split; [done|]. split.
    + split; [done|]. intros Hn. apply delete_chain_find in Hn. congruence.
    + intros _ Ht.
      destruct (delete_chain_wf (hash_string key) _ _ _
                  (bucket_wf _ _ Ht (proj1 Hrange)) Hd) as [Hwf Hnone].
      split; [apply set_bucket_wf; [done | lia | done]|].
      rewrite bucket_set_bucket; [done|].
      apply hash_index_in_table, Ht.
  - split; [by right|]. split; [done|]. split; [|done].
    split; [|done]. intros _. by apply delete_chain_find.
Qed.

(** ** Fan-out *)

Lemma world_eta w : World (allocs w) (calls w) = w.
Proof. by destruct w. Qed.

(** The loop calls, in slot order, the active slots that have a callback. *)
Lemma notify_loop_calls subs key w :
  notify_loop subs key w =
  (tt, World (allocs w)
         (calls w ++ (call_of key <$>
            filter (fun s => sub_active s <> 0 /\ sub_callback s <> NULL) subs))).
Proof.
  revert w. induction subs as [|s rest IH]; intros w; simpl.
  - by rewrite app_nil_r, world_eta.
  - unfold bind. rewrite filter_cons.
    destruct (Z.eqb_spec (sub_active s) 0) as [Hz|Hnz]; simpl.
    + rewrite IH. rewrite decide_False by tauto. done.
    + destruct (Z.eqb_spec (sub_callback s) NULL) as [Hc|Hc]; simpl.
      * rewrite IH. rewrite decide_False by tauto. done.
      * rewrite IH. simpl. rewrite decide_True by done.
        rewrite fmap_cons. by rewrite <- app_assoc.
Qed.

Lemma filter_active_callback subs :
  Forall (fun s => sub_active s <> 0 -> sub_callback s <> NULL) subs ->
  filter (fun s => sub_active s <> 0 /\ sub_callback s <> NULL) subs =
  filter (fun s => sub_active s <> 0) subs.
Proof.
  induction 1 as [|s rest Hs _ IH]; [done|].
  rewrite !filter_cons, IH.
  destruct (decide (sub_active s <> 0)) as [Ha|Ha].
  - by rewrite decide_True by auto.
  - by rewrite decide_False by tauto.
Qed.

(** In a store of the API a fan-out calls every active subscription once. *)
Lemma notify_subscribers_calls db key w :
  subs_wf db ->
  notify_subscribers db key w =
  (tt, World (allocs w) (calls w ++ fan_out db key)).
Proof.
  intros [_ Hcb]. unfold notify_subscribers, fan_out, active_subs.
  by rewrite notify_loop_calls, filter_active_callback.
Qed.

(** ** The public calls, one by one *)

Lemma ditto_put_spec db key data w rc r w' :
  subs_wf db ->
  ditto_put (Some db) key data w = ((rc, r), w') ->
  exists db', r = Some db' /\
    subscriptions db' = subscriptions db /\
    next_sub_id db' = next_sub_id db /\
    (rc = 0 \/ rc = -1) /\
    (rc <> 0 -> db' = db /\ calls w' = calls w) /\
    (rc = 0 -> exists k v, key = Some k /\ data = Some v /\
       calls w' = calls w ++ fan_out db k /\
       (table_wf (table db) -> table_wf (table db')) /\
       (length (buckets (table db)) = Z.to_nat HASH_SIZE ->
        exists k', chain_find (bucket (table db') (hash_string k)) k =
                   Some (Entry k' v (length v)))).
Proof.
  intros Hsubs. unfold ditto_put.
  destruct key as [k|]; [destruct data as [v|]|];
    try (intros [= <- <- <-]; exists db; repeat split; (done || by right)).
  unfold bind.
  destruct (hash_table_put (table db) k v w) as [[rc1 t1] w1] eqn:Hput.
  destruct (hash_table_put_spec _ _ _ _ _ _ _ Hput)
    as (Hc & Hrc & Hfail & Hfind & Hwf). simpl.
  destruct (Z.eqb_spec rc1 0) as [Hz|Hnz].
  - rewrite notify_subscribers_calls by done. intros [= <- <- <-].
    eexists. split; [done|]. simpl. repeat split; try done.
    intros _. exists k, v. split; [done|]. split; [done|]. simpl.
    split; [by rewrite Hc|]. split; [by apply Hwf | by apply Hfind].
  - intros [= <- <- <-]. eexists. split; [done|]. simpl.
    repeat split; try done.
    rewrite (Hfail Hnz). by destruct db.
Qed.

Lemma ditto_delete_spec db key w rc r w' :
  subs_wf db ->
  ditto_delete (Some db) key w = ((rc, r), w') ->
  exists db', r = Some db' /\
    subscriptions db' = subscriptions db /\
    next_sub_id db' = next_sub_id db /\
    allocs w' = allocs w /\
    (rc = 0 \/ rc = 2 \/ rc = -1) /\
    (rc <> 0 -> db' = db /\ calls w' = calls w) /\
    (rc = 0 -> exists k, key = Some k /\
       calls w' = calls w ++ fan_out db k /\
       (table_wf (table db) ->
          table_wf (table db') /\
          chain_find (bucket (table db') (hash_string k)) k = None)).
Proof.
  intros Hsubs. unfold ditto_delete.
  destruct key as [k|];
    [|intros [= <- <- <-]; exists db; repeat split; (done || by right; right)].
  unfold bind.
  destruct (hash_table_delete (table db) k) as [rc1 t1] eqn:Hdel.
  destruct (hash_table_delete_spec _ _ _ _ Hdel) as (Hrc & Hfail & _ & Hok).
  simpl. destruct (Z.eqb_spec rc1 0) as [Hz|Hnz].
  - rewrite notify_subscribers_calls by done. intros [= <- <- <-].
    eexists. split; [done|]. simpl. repeat split; try done; [lia|].
    intros _. exists k. split; [done|]. simpl. split; [done | by apply Hok].
  - intros [= <- <- <-]. eexists. split; [done|]. simpl.
    repeat split; try done; [lia|].
    rewrite (Hfail Hnz). by destruct db.
Qed.

Lemma ditto_subscribe_spec db cb user_data out rc r out' :
  ditto_subscribe (Some db) cb user_data out = (rc, r, out') ->
  (rc = -1 /\ r = Some db /\ out' = out /\
   (cb = NULL \/ out = None \/
    Forall (fun s => sub_active s <> 0) (subscriptions db))) \/
  (rc = 0 /\ cb <> NULL /\ out' = Some (next_sub_id db) /\
   exists i s, subscriptions db !! i = Some s /\ sub_active s = 0 /\
     (forall j y, subscriptions db !! j = Some y -> (j < i)%nat ->
                  sub_active y <> 0) /\
     r = Some (Db (table db)
                  (<[i := Subscription (next_sub_id db) cb user_data 1]>
                     (subscriptions db))
                  (wrap_int32 (next_sub_id db + 1)))).
Proof.
  unfold ditto_subscribe.
  destruct out as [o|]; [|intros [= <- <- <-]; left; by auto 10].
  destruct (Z.eqb_spec cb NULL) as [Hc|Hc];
    [intros [= <- <- <-]; left; by auto 10|].
  destruct (list_find _ _) as [[i s]|] eqn:Hfind; intros [= <- <- <-].
  - right. apply list_find_Some in Hfind as (Hl & Ha & Hbefore).
    split; [done|]. split; [done|]. split; [done|]. by exists i, s.
  - left. apply list_find_None in Hfind. by auto 10.
Qed.

Lemma ditto_unsubscribe_spec db id rc r :
  ditto_unsubscribe (Some db) id = (rc, r) ->
  (rc = -1 /\ r = Some db /\
   Forall (fun s => ~ (sub_active s <> 0 /\ sub_id s = id)) (subscriptions db)) \/
  (rc = 0 /\
   exists i s, subscriptions db !! i = Some s /\
     sub_active s <> 0 /\ sub_id s = id /\
     (forall j y, subscriptions db !! j = Some y -> (j < i)%nat ->
                  ~ (sub_active y <> 0 /\ sub_id y = id)) /\
     r = Some (Db (table db)
                  (<[i := Subscription id NULL NULL 0]> (subscriptions db))
                  (next_sub_id db))).
Proof.
  unfold ditto_unsubscribe.
  destruct (list_find _ _) as [[i s]|] eqn:Hfind; intros [= <- <-].
  - right. apply list_find_Some in Hfind as (Hl & [Ha Hid] & Hbefore).
    split; [done|]. exists i, s. repeat split; try done. by rewrite Hid.
  - left. apply list_find_None in Hfind. auto.
Qed.

(** ** Stores of the API are well formed *)

Lemma ditto_open_fresh path out w db w' :
  ditto_open path out w = ((0, Some (Some db)), w') -> db = fresh_db.
Proof.
  unfold ditto_open. destruct path; [|by destruct out].
  destruct out; [|done]. unfold bind, hash_table_create, bind.
  destruct (alloc w) as [[] w1]; simpl; [|done].
  destruct (alloc w1) as [[] w2]; simpl; [|done].
  by intros [= <- <-].
Qed.

Lemma fresh_db_wf : db_wf fresh_db.
Proof.
  split; [split|split]; unfold fresh_db; cbn [table buckets subscriptions].
  - apply length_replicate.
  - intros idx chain [-> _]%lookup_replicate. done.
  - apply length_replicate.
  - apply Forall_replicate. done.
Qed.

Lemma reachable_wf db : reachable db -> db_wf db.
Proof.
  induction 1 as [path out w db w' Ho
                 |db key data w rc db' w' _ [Ht Hs] Hp
                 |db key w rc db' w' _ [Ht Hs] Hd
                 |db cb ud out rc db' out' _ [Ht Hs] Hsub
                 |db id rc db' _ [Ht Hs] Hun].
  - apply ditto_open_fresh in Ho as ->. apply fresh_db_wf.
  - destruct (ditto_put_spec _ _ _ _ _ _ _ Hs Hp)
      as (d & [= <-] & Hsame & _ & _ & Hfail & Hok).
    destruct (decide (rc = 0)) as [Hz|Hnz].
    + destruct (Hok Hz) as (k & v & _ & _ & _ & Hwf & _).
      split; [by apply Hwf|]. unfold subs_wf. by rewrite Hsame.
    + by destruct (Hfail Hnz) as [-> _].
  - destruct (ditto_delete_spec _ _ _ _ _ _ Hs Hd)
      as (d & [= <-] & Hsame & _ & _ & _ & Hfail & Hok).
    destruct (decide (rc = 0)) as [Hz|Hnz].
    + destruct (Hok Hz) as (k & _ & _ & Hwf).
      split; [by apply Hwf|]. unfold subs_wf. by rewrite Hsame.
    + by destruct (Hfail Hnz) as [-> _].
  - apply ditto_subscribe_spec in Hsub
      as [(_ & [= <-] & _)|(_ & Hcb & _ & i & s & Hl & _ & _ & [= ->])];
      [done|].
    split; [done|]. destruct Hs as [Hlen Hall]. split; simpl.
    + by rewrite length_insert.
    + apply Forall_insert; done.
  - apply ditto_unsubscribe_spec in Hun
      as [(_ & [= <-] & _)|(_ & i & s & Hl & _ & _ & _ & [= ->])]; [done|].
    split; [done|]. destruct Hs as [Hlen Hall]. split; simpl.
    + by rewrite length_insert.
    + apply Forall_insert; done.
Qed.

Lemma reachable_fresh : reachable fresh_db.
Proof.
  by apply (reach_open (Some []) (Some None) (World [] []) fresh_db
              (World [] [])).
Qed.

(** ** Entries and lookups *)

(** In a well-formed table the entry of a key is the one [get] stops at. *)
Lemma live_find db key e :
  table_wf (table db) ->
  live db key e <->
  chain_find (bucket (table db) (hash_string key)) key = Some e.
Proof.
  intros Ht. pose proof (hash_string_range key) as Hr. split.
  - intros (idx & chain & Hl & Hin & Hk).
    pose proof (proj2 Ht idx chain Hl) as Hwf.
    pose proof (chain_wf_hash _ _ _ Hwf Hin) as Hh.
    rewrite (hash_string_strcmp _ _ Hk) in Hh.
    unfold bucket. rewrite Hh, Nat2Z.id, Hl. simpl.
    by apply (chain_find_unique (Z.of_nat idx)).
  - intros Hf. apply chain_find_Some in Hf as [Hin Hk].
    unfold bucket in Hin.
    destruct (buckets (table db) !! Z.to_nat (hash_string key))
      as [chain|] eqn:Hl; simpl in Hin; [|by apply elem_of_nil in Hin].
    by exists (Z.to_nat (hash_string key)), chain.
Qed.

Lemma live_len db key e :
  table_wf (table db) -> live db key e -> entry_len e = length (entry_data e).
Proof.
  intros Ht (idx & chain & Hl & Hin & _).
  apply (chain_wf_len (Z.of_nat idx) chain); [by apply Ht | done].
Qed.

(** [ditto_get] with a store, a key and a length pointer, spelled out. *)
Lemma ditto_get_find db key out_buf n :
  ditto_get (Some db) (Some key) out_buf (Some n) =
  match chain_find (bucket (table db) (hash_string key)) key with
  | None => (2, out_buf, Some n)
  | Some e =>
      match out_buf with
      | None => (1, None, Some (entry_len e))
      | Some buf =>
          if (n <? entry_len e)%nat then (1, Some buf, Some (entry_len e))
          else (0, Some (memcpy buf (entry_data e) (entry_len e)),
                Some (entry_len e))
      end
  end.
Proof.
  unfold ditto_get, hash_table_get. rewrite get_chain_find.
  destruct (chain_find _ key) as [e|]; [|done].
  destruct out_buf as [buf|]; [|done].
  by destruct (n <? entry_len e)%nat.
Qed.

Lemma memcpy_all buf v : memcpy buf v (length v) = v ++ drop (length v) buf.
Proof. unfold memcpy. by rewrite firstn_all. Qed.

(** ** Failed calls *)

Lemma ditto_put_failure db key data w rc r w' :
  ditto_put db key data w = ((rc, r), w') ->
  (rc = 0 \/ rc = -1) /\ (rc <> 0 -> r = db /\ calls w' = calls w).
Proof.
  unfold ditto_put.
  destruct db as [d|]; [destruct key as [k|]; [destruct data as [v|]|]|];
    try (intros [= <- <- <-]; split; [by right | done]).
  unfold bind.
  destruct (hash_table_put (table d) k v w) as [[rc1 t1] w1] eqn:Hput.
  destruct (hash_table_put_spec _ _ _ _ _ _ _ Hput) as (Hc & Hrc & Hfail & _).
  simpl. destruct (Z.eqb_spec rc1 0) as [Hz|Hnz].
  - destruct (notify_subscribers _ k w1). intros [= <- <- <-]. done.
  - intros [= <- <- <-]. split; [done|]. intros _.
    rewrite (Hfail Hnz). by destruct d.
Qed.

Lemma ditto_delete_failure db key w rc r w' :
  ditto_delete db key w = ((rc, r), w') ->
  (rc = 0 \/ rc = 2 \/ rc = -1) /\ (rc <> 0 -> r = db /\ w' = w).
Proof.
  unfold ditto_delete.
  destruct db as [d|]; [destruct key as [k|]|];
    try (intros [= <- <- <-]; split; [by right; right | done]).
  unfold bind.
  destruct (hash_table_delete (table d) k) as [rc1 t1] eqn:Hdel.
  destruct (hash_table_delete_spec _ _ _ _ Hdel) as (Hrc & Hfail & _).
  simpl. destruct (Z.eqb_spec rc1 0) as [Hz|Hnz].
  - destruct (notify_subscribers _ k w). intros [= <- <- <-]. split; [lia|done].
  - intros [= <- <- <-]. split; [lia|]. intros _.
    rewrite (Hfail Hnz). by destruct d.
Qed.

(** With memory available and its three arguments a [ditto_put] returns [0]. *)
Lemma ditto_put_served db key data w :
  no_alloc_failure w ->
  exists db' w', ditto_put (Some db) (Some key) (Some data) w =
                   ((0, Some db'), w') /\ no_alloc_failure w'.
Proof.
  intros Hw. unfold ditto_put, bind.
  destruct (hash_table_put_served (table db) key data w Hw)
    as (t' & w1 & -> & Hw1).
  simpl. unfold notify_subscribers. rewrite notify_loop_calls.
  by eexists _, _.
Qed.

(** ** Which entries a call can add *)

Lemma hash_table_put_keys t key data w rc t' w' idx chain' e :
  hash_table_put t key data w = ((rc, t'), w') ->
  buckets t' !! idx = Some chain' -> e ∈ chain' ->
  strcmp (entry_key e) key = 0 \/
  exists chain e0, buckets t !! idx = Some chain /\ e0 ∈ chain /\
    entry_key e0 = entry_key e.
Proof.
  unfold hash_table_put, bind.
  destruct (put_chain _ key data w) as [r w1] eqn:Hp.
  destruct (put_chain_cases _ _ _ _ _ _ Hp) as [_ Hr].
  assert (Hsame : buckets t !! idx = Some chain' -> e ∈ chain' ->
            exists chain e0, buckets t !! idx = Some chain /\ e0 ∈ chain /\
              entry_key e0 = entry_key e) by (by exists chain', e).
  assert (Hbucket : (Z.to_nat (hash_string key) < length (buckets t))%nat ->
            exists chain, buckets t !! Z.to_nat (hash_string key) = Some chain /\
              bucket t (hash_string key) = chain).
  { intros Hlt. apply lookup_lt_is_Some_2 in Hlt as [chain Hl].
    exists chain. unfold bucket. by rewrite Hl. }
  destruct r as [chain0| |].
  - intros [= <- <- <-] Hl Hin. destruct Hr as (_ & _ & Hkeys). simpl in Hl.
    apply list_lookup_insert_Some in Hl as [(<- & <- & Hlt)|[_ Hl]]; [|auto].
    right. destruct (Hbucket Hlt) as (chain & Hc & Hb). rewrite Hb in Hkeys.
    assert (Hk : entry_key e ∈ entry_key <$> chain).
    { rewrite <- Hkeys. apply list_elem_of_fmap. by exists e. }
    apply list_elem_of_fmap in Hk as (e0 & Hk & Hin0). by exists chain, e0.
  - intros [= <- <- <-]. auto.
  - destruct (alloc w1) as [[] w2]; simpl; [|intros [= <- <- <-]; auto].
    destruct (alloc w2) as [[] w3]; destruct (alloc w3) as [[] w4]; simpl;
      intros [= <- <- <-]; auto.
    intros Hl Hin. simpl in Hl.
    apply list_lookup_insert_Some in Hl as [(<- & <- & Hlt)|[_ Hl]]; [|auto].
    apply elem_of_cons in Hin as [->|Hin]; [left; apply strcmp_strdup|].
    right. destruct (Hbucket Hlt) as (chain & Hc & Hb). rewrite Hb in Hin.
    by exists chain, e.
Qed.

Lemma hash_table_delete_keys t key rc t' idx chain' e :
  hash_table_delete t key = (rc, t') ->
  buckets t' !! idx = Some chain' -> e ∈ chain' ->
  exists chain, buckets t !! idx = Some chain /\ e ∈ chain.
Proof.
  unfold hash_table_delete.
  destruct (delete_chain _ key) as [chain0|] eqn:Hd; intros [= <- <-] Hl Hin;
    [|by exists chain'].
  simpl in Hl.
  apply list_lookup_insert_Some in Hl as [(<- & <- & Hlt)|[_ Hl]];
    [|by exists chain'].
  apply lookup_lt_is_Some_2 in Hlt as [chain Hc]. exists chain. split; [done|].
  apply (delete_chain_sub _ key chain0); [|done].
  unfold bucket in Hd. by rewrite Hc in Hd.
Qed.

Lemma ditto_put_live db key data w rc db' w' K e :
  ditto_put (Some db) key data w = ((rc, Some db'), w') ->
  live db' K e ->
  (exists k, key = Some k /\ strcmp k K = 0) \/ exists e0, live db K e0.
Proof.
  unfold ditto_put.
  destruct key as [k|]; [destruct data as [v|]|];
    try (intros [= <- <- <-] Hl; right; by exists e).
  unfold bind.
  destruct (hash_table_put (table db) k v w) as [[rc1 t1] w1] eqn:Hput.
  cbn [fst snd]. intros Hres (idx & chain' & Hl & Hin & Hk).
  assert (Ht : table db' = t1).
  { destruct (if rc1 =? 0 then _ else _) as [[] w2].
    by injection Hres as _ <- _. }
  rewrite Ht in Hl.
  destruct (hash_table_put_keys _ _ _ _ _ _ _ _ _ _ Hput Hl Hin)
    as [Hnew|(chain & e0 & Hl0 & Hin0 & Hkey)].
  - left. exists k. split; [done|].
    apply (strcmp_trans _ (entry_key e)); [by apply strcmp_sym | done].
  - right. exists e0, idx, chain. by rewrite Hkey.
Qed.

Lemma ditto_delete_live db key w rc db' w' K e :
  ditto_delete (Some db) key w = ((rc, Some db'), w') ->
  live db' K e -> live db K e.
Proof.
  unfold ditto_delete.
  destruct key as [k|]; [|by intros [= <- <- <-]].
  unfold bind.
  destruct (hash_table_delete (table db) k) as [rc1 t1] eqn:Hdel.
  cbn [fst snd]. intros Hres (idx & chain' & Hl & Hin & Hk).
  assert (Ht : table db' = t1).
  { destruct (if rc1 =? 0 then _ else _) as [[] w2].
    by injection Hres as _ <- _. }
  rewrite Ht in Hl.
  destruct (hash_table_delete_keys _ _ _ _ _ _ _ Hdel Hl Hin) as (chain & Hl0 & Hin0).
  by exists idx, chain.
Qed.

(** ** Sequences of calls *)

Lemma ditto_put_some db key data w rc r w' :
  ditto_put (Some db) key data w = ((rc, r), w') -> exists db', r = Some db'.
Proof.
  unfold ditto_put.
  destruct key as [k|]; [destruct data as [v|]|];
    try (intros [= _ <- _]; by eexists).
  unfold bind. destruct (hash_table_put _ k v w) as [[rc1 t1] w1].
  cbn [fst snd]. destruct (if rc1 =? 0 then _ else _) as [[] w2].
  intros [= _ <- _]. by eexists.
Qed.

Lemma ditto_delete_some db key w rc r w' :
  ditto_delete (Some db) key w = ((rc, r), w') -> exists db', r = Some db'.
Proof.
  unfold ditto_delete. destruct key as [k|]; [|intros [= _ <- _]; by eexists].
  unfold bind. destruct (hash_table_delete _ k) as [rc1 t1].
  cbn [fst snd]. destruct (if rc1 =? 0 then _ else _) as [[] w2].
  intros [= _ <- _]. by eexists.
Qed.

(** One step of a run is one call of the API on the store. *)
Lemma api_step_cases c db ids w db' ids' w' :
  api_step c (db, ids) w = ((db', ids'), w') ->
  match c with
  | Put key data =>
      exists rc, ditto_put (Some db) key data w = ((rc, Some db'), w') /\
        ids' = ids
  | Get _ _ _ => db' = db /\ ids' = ids /\ w' = w
  | Delete key =>
      exists rc, ditto_delete (Some db) key w = ((rc, Some db'), w') /\
        ids' = ids
  | Subscribe cb user_data out =>
      exists rc out',
        ditto_subscribe (Some db) cb user_data out = (rc, Some db', out') /\
        w' = w /\ ids' = (if rc =? 0 then ids ++ option_list out' else ids)
  | Unsubscribe id =>
      exists rc, ditto_unsubscribe (Some db) id = (rc, Some db') /\
        w' = w /\ ids' = ids
  end.
Proof.
  destruct c as [key data|key out_buf n|key|cb ud out|id];
    unfold api_step, bind.
  - destruct (ditto_put (Some db) key data w) as [[rc r] w1] eqn:Hp.
    destruct (ditto_put_some _ _ _ _ _ _ _ Hp) as [d ->].
    intros [= <- <- <-]. by exists rc.
  - by intros [= <- <- <-].
  - destruct (ditto_delete (Some db) key w) as [[rc r] w1] eqn:Hd.
    destruct (ditto_delete_some _ _ _ _ _ _ Hd) as [d ->].
    intros [= <- <- <-]. by exists rc.
  - destruct (ditto_subscribe (Some db) cb ud out) as [[rc r] out'] eqn:Hs.
    intros [= <- <- <-]. exists rc, out'.
    by apply ditto_subscribe_spec in Hs
      as [(-> & -> & -> & _)|(-> & _ & -> & i & s & _ & _ & _ & ->)].
  - destruct (ditto_unsubscribe (Some db) id) as [rc r] eqn:Hu.
    intros [= <- <- <-]. exists rc.
    by apply ditto_unsubscribe_spec in Hu
      as [(-> & -> & _)|(-> & i & s & _ & _ & _ & _ & ->)].
Qed.

Lemma api_step_reachable c db ids w db' ids' w' :
  reachable db -> api_step c (db, ids) w = ((db', ids'), w') -> reachable db'.
Proof.
  intros Hr Hstep%api_step_cases.
  destruct c as [key data|key out_buf n|key|cb ud out|id].
  - destruct Hstep as (rc & Hp & _). by eapply reach_put.
  - by destruct Hstep as (-> & _).
  - destruct Hstep as (rc & Hd & _). by eapply reach_delete.
  - destruct Hstep as (rc & out' & Hs & _). by eapply reach_subscribe.
  - destruct Hstep as (rc & Hu & _). by eapply reach_unsubscribe.
Qed.

(** A property of the store and of the ids handed out that every admitted
    call preserves holds at the end of a run of admitted calls. *)
Lemma run_api_invariant (Q : api_call -> Prop)
    (P : ditto_db -> list Z -> world -> Prop) :
  (forall c db ids w db' ids' w',
     Q c -> reachable db -> P db ids w ->
     api_step c (db, ids) w = ((db', ids'), w') -> P db' ids' w') ->
  forall cs db ids w db' ids' w',
    Forall Q cs -> reachable db -> P db ids w ->
    run_api cs (db, ids) w = ((db', ids'), w') ->
    reachable db' /\ P db' ids' w'.
Proof.
  intros Hstep cs. induction cs as [|c cs IH];
    intros db ids w db' ids' w' HQ Hr HP; cbn [run_api].
  - by intros [= <- <- <-].
  - inversion HQ as [|? ? Hc Hcs]; subst. unfold bind at 1.
    destruct (api_step c (db, ids) w) as [[db1 ids1] w1] eqn:Hs.
    apply (IH db1 ids1 w1); [done | by eapply api_step_reachable |].
    by eapply Hstep.
Qed.

(** ** The slot table *)

(** A successful subscribe adds one active subscription, in a free slot. *)
Lemma subscribe_active_subs db cb user_data out db' out' :
  ditto_subscribe (Some db) cb user_data out = (0, Some db', out') ->
  exists before after,
    active_subs db = before ++ after /\
    active_subs db' =
      before ++ Subscription (next_sub_id db) cb user_data 1 :: after.
Proof.
  intros Hs. apply ditto_subscribe_spec in Hs
    as [(? & _)|(_ & _ & _ & i & s & Hl & Ha & _ & [= ->])]; [done|].
  exists (filter (fun s => sub_active s <> 0) (take i (subscriptions db))),
         (filter (fun s => sub_active s <> 0) (drop (S i) (subscriptions db))).
  unfold active_subs. cbn [subscriptions]. split.
  - rewrite (filter_middle _ _ i s Hl).
    by rewrite (filter_cons _ s), decide_False by (by intros []).
  - rewrite (filter_insert_middle _ _ i s _ Hl).
    by rewrite (filter_cons _ (Subscription _ _ _ _)), decide_True.
Qed.

(** A successful unsubscribe removes one active subscription of that id. *)
Lemma unsubscribe_active_subs db id db' :
  ditto_unsubscribe (Some db) id = (0, Some db') ->
  exists before s after,
    sub_id s = id /\
    active_subs db = before ++ s :: after /\
    active_subs db' = before ++ after.
Proof.
  intros Hu. apply ditto_unsubscribe_spec in Hu
    as [(? & _)|(_ & i & s & Hl & Ha & Hid & _ & [= ->])]; [done|].
  exists (filter (fun s => sub_active s <> 0) (take i (subscriptions db))), s,
         (filter (fun s => sub_active s <> 0) (drop (S i) (subscriptions db))).
  unfold active_subs. cbn [subscriptions]. split; [done|]. split.
  - rewrite (filter_middle _ _ i s Hl).
    by rewrite (filter_cons _ s), decide_True.
  - rewrite (filter_insert_middle _ _ i s _ Hl).
    by rewrite (filter_cons _ (Subscription _ _ _ _)), decide_False
      by (by intros []).
Qed.

Lemma subscribe_length db cb user_data out rc db' out' :
  ditto_subscribe (Some db) cb user_data out = (rc, Some db', out') ->
  length (subscriptions db') = length (subscriptions db).
Proof.
  intros Hs. apply ditto_subscribe_spec in Hs
    as [(_ & [= <-] & _)|(_ & _ & _ & i & s & _ & _ & _ & [= ->])]; [done|].
  cbn [subscriptions]. apply length_insert.
Qed.

Lemma unsubscribe_length db id rc db' :
  ditto_unsubscribe (Some db) id = (rc, Some db') ->
  length (subscriptions db') = length (subscriptions db).
Proof.
  intros Hu. apply ditto_unsubscribe_spec in Hu
    as [(_ & [= <-] & _)|(_ & i & s & _ & _ & _ & _ & [= ->])]; [done|].
  cbn [subscriptions]. apply length_insert.
Qed.

(** [subscribe] with its arguments succeeds exactly when a slot is free. *)
Lemma subscribe_free_slot db cb user_data o :
  cb <> NULL ->
  (length (active_subs db) < length (subscriptions db))%nat ->
  exists db', ditto_subscribe (Some db) cb user_data (Some o) =
              (0, Some db', Some (next_sub_id db)).
Proof.
  intros Hcb Hlt.
  destruct (ditto_subscribe (Some db) cb user_data (Some o))
    as [[rc r] out'] eqn:Hs.
  apply ditto_subscribe_spec in Hs
    as [(_ & _ & _ & [?|[?|Hall]])|(-> & _ & -> & i & s & _ & _ & _ & ->)];
    [done | done | | by eexists].
  unfold active_subs in Hlt. rewrite filter_all in Hlt by done. lia.
Qed.

Lemma subscribe_no_free_slot db cb user_data out :
  length (active_subs db) = length (subscriptions db) ->
  ditto_subscribe (Some db) cb user_data out = (-1, Some db, out).
Proof.
  intros Hfull.
  destruct (ditto_subscribe (Some db) cb user_data out) as [[rc r] out'] eqn:Hs.
  apply ditto_subscribe_spec in Hs
    as [(-> & -> & -> & _)|(_ & _ & _ & i & s & Hl & Ha & _)]; [done|].
  assert (Hlt : (length (active_subs db) < length (subscriptions db))%nat).
  { apply (length_filter_lt _ _ s); [by eapply list_elem_of_lookup_2|].
    by intros []. }
  lia.
Qed.

(** * The claims *)

(** ** Notification on mutation *)

(** A delete of a key that is stored returns [0] after the fan-out. *)
Lemma ditto_delete_found db K e w :
  subs_wf db ->
  chain_find (bucket (table db) (hash_string K)) K = Some e ->
  exists db',
    ditto_delete (Some db) (Some K) w =
    ((0, Some db'), World (allocs w) (calls w ++ fan_out db K)).
Proof.
  intros Hs Hf. unfold ditto_delete, hash_table_delete, bind.
  destruct (delete_chain (bucket (table db) (hash_string K)) K)
    as [chain'|] eqn:Hd; [|apply delete_chain_find in Hd; congruence].
  cbn [fst snd Z.eqb]. rewrite notify_subscribers_calls by done.
  by eexists.
Qed.

(** C1: in every store of the API, a successful [ditto_put] or
    [ditto_delete] of a key has invoked, when it returns, the callback of
    each currently-active subscription exactly once, with its registered
    context and that key, in slot order ([fan_out]); a put or delete that
    fails (argument error, allocation error, key not found) invokes no
    callback. Such successes occur: a put with memory available and a
    delete of a stored key return [0], with that fan-out made. *)
Theorem mutation_notifies_each_active_subscription db :
  reachable db ->
  (forall key data w rc r w',
     ditto_put (Some db) key data w = ((rc, r), w') ->
     rc = 0 ->
     exists k, key = Some k /\ calls w' = calls w ++ fan_out db k) /\
  (forall key w rc r w',
     ditto_delete (Some db) key w = ((rc, r), w') ->
     rc = 0 ->
     exists k, key = Some k /\ calls w' = calls w ++ fan_out db k) /\
  (forall h key data w rc r w',
     ditto_put h key data w = ((rc, r), w') ->
     rc <> 0 -> calls w' = calls w) /\
  (forall h key w rc r w',
     ditto_delete h key w = ((rc, r), w') ->
     rc <> 0 -> calls w' = calls w) /\
  (forall K V w,
     no_alloc_failure w ->
     exists db' w',
       ditto_put (Some db) (Some K) (Some V) w = ((0, Some db'), w') /\
       calls w' = calls w ++ (call_of K <$> active_subs db)) /\
  (forall K e w,
     live db K e ->
     exists db' w',
       ditto_delete (Some db) (Some K) w = ((0, Some db'), w') /\
       calls w' = calls w ++ (call_of K <$> active_subs db)).
Proof.
  intros [Ht Hs]%reachable_wf. split; [|split; [|split; [|split; [|split]]]].
  - intros key data w rc r w' Hp Hz.
    destruct (ditto_put_spec _ _ _ _ _ _ _ Hs Hp) as (d & _ & _ & _ & _ & _ & Hok).
    destruct (Hok Hz) as (k & v & -> & _ & Hc & _). by exists k.
  - intros key w rc r w' Hd Hz.
    destruct (ditto_delete_spec _ _ _ _ _ _ Hs Hd)
      as (d & _ & _ & _ & _ & _ & _ & Hok).
    destruct (Hok Hz) as (k & -> & Hc & _). by exists k.
  - intros h key data w rc r w' Hp Hnz.
    by destruct (proj2 (ditto_put_failure _ _ _ _ _ _ _ Hp) Hnz).
  - intros h key w rc r w' Hd Hnz.
    by destruct (proj2 (ditto_delete_failure _ _ _ _ _ _ Hd) Hnz) as [_ ->].
  - intros K V w Hw.
    destruct (ditto_put_served db K V w Hw) as (db' & w' & Hp & _).
    exists db', w'. split; [done|].
    destruct (ditto_put_spec _ _ _ _ _ _ _ Hs Hp) as (d & _ & _ & _ & _ & _ & Hok).
    by destruct (Hok eq_refl) as (k & v & [= <-] & _ & Hc & _).
  - intros K e w Hlive. apply (live_find _ _ _ Ht) in Hlive.
    destruct (ditto_delete_found db K e w Hs Hlive) as (db' & Hd).
    by eexists _, _.
Qed.

Lemma mutation_notifies_each_active_subscription_witness :
  let cs := [Subscribe 7 9 (Some 0); Subscribe 8 10 (Some 0);
             Put (Some [x61]) (Some [x01; x02])] in
  let db := fst (fst (run_api cs (fresh_db, []) (World [] []))) in
  let w := World [] [] in
  reachable db /\ live db [x61] (Entry [x61] [x01; x02] 2) /\
  (call_of [x61] <$> active_subs db) =
    [Call 1 7 9 [x61]; Call 2 8 10 [x61]] /\
  exists db' w',
    ditto_delete (Some db) (Some [x61]) w = ((0, Some db'), w') /\
    calls w' = calls w ++ (call_of [x61] <$> active_subs db).
Proof.
  intros cs db w.
  assert (Hr : reachable db).
  { destruct (run_api_invariant (fun _ => True) (fun _ _ _ => True)
                (fun _ _ _ _ _ _ _ _ _ _ _ => I) cs fresh_db [] (World [] [])
                db [1; 2] (World [] [Call 1 7 9 [x61]; Call 2 8 10 [x61]]))
      as [Hr _]; [by apply Forall_true | exact reachable_fresh | done | | done].
    reflexivity. }
  assert (Hl : live db [x61] (Entry [x61] [x01; x02] 2)).
  { exists (Z.to_nat (hash_string [x61])), [Entry [x61] [x01; x02] 2].
    split; [reflexivity|]. split; [left | reflexivity]. }
  split; [exact Hr|]. split; [exact Hl|]. split; [reflexivity|].
  destruct (mutation_notifies_each_active_subscription db Hr)
    as (_ & _ & _ & _ & _ & Hdel).
  exact (Hdel [x61] (Entry [x61] [x01; x02] 2) w Hl).
Defined.

(** ** Last write wins *)

(** C2: in every store of the API, for every key [K] and values [V1], [V2]
    of any lengths, with memory available, [put (K, V1)], [put (K, V2)] and
    then [get (K)] into a buffer of capacity at least [length V2] all return
    [0] (Ok); the buffer then starts with the bytes [V2] and the reported
    length is [length V2]. [V1] does not occur in the result. *)
Theorem put_put_get_last_write_wins db K V1 V2 buf cap w :
  reachable db ->
  no_alloc_failure w ->
  (length V2 <= cap)%nat ->
  fst ((r1 <~ ditto_put (Some db) (Some K) (Some V1) ;;
        r2 <~ ditto_put (snd r1) (Some K) (Some V2) ;;
        ret (fst r1, fst r2,
             ditto_get (snd r2) (Some K) (Some buf) (Some cap))) w) =
  (0, 0, (0, Some (V2 ++ drop (length V2) buf), Some (length V2))).
Proof.
  intros Hr Hw Hcap. unfold bind.
  destruct (ditto_put_served db K V1 w Hw) as (db1 & w1 & Hp1 & Hw1).
  rewrite Hp1. cbn [fst snd].
  assert (Hr1 : reachable db1) by (by eapply reach_put).
  destruct (ditto_put_served db1 K V2 w1 Hw1) as (db2 & w2 & Hp2 & Hw2).
  rewrite Hp2. cbn [fst snd ret].
  destruct (reachable_wf _ Hr1) as [[Hlen _] Hs1].
  destruct (ditto_put_spec _ _ _ _ _ _ _ Hs1 Hp2)
    as (d & [= <-] & _ & _ & _ & _ & Hok).
  destruct (Hok eq_refl) as (k & v & [= <-] & [= <-] & _ & _ & Hfind).
  destruct (Hfind Hlen) as [k' Hf].
  rewrite ditto_get_find, Hf. simpl.
  destruct (Nat.ltb_spec cap (length V2)) as [Hlt|_]; [lia|].
  by rewrite memcpy_all.
Qed.

Lemma put_put_get_last_write_wins_witness :
  fst ((r1 <~ ditto_put (Some fresh_db) (Some [x6b]) (Some [x01; x02; x03]) ;;
        r2 <~ ditto_put (snd r1) (Some [x6b]) (Some [x09]) ;;
        ret (fst r1, fst r2,
             ditto_get (snd r2) (Some [x6b]) (Some [x00; x00]) (Some 2%nat)))
         (World [] [])) =
  (0, 0, (0, Some ([x09] ++ drop (length [x09]) [x00; x00]),
          Some (length [x09]))).
Proof.
  apply (put_put_get_last_write_wins fresh_db [x6b] [x01; x02; x03] [x09]
           [x00; x00] 2%nat (World [] []) reachable_fresh).
  - constructor.
  - simpl. lia.
Defined.

(** ** Buffer-size negotiation *)

(** C3: in every store of the API, for a key [K] stored with value [V],
    [get] with a capacity below [length V] returns [1] (BufferTooSmall),
    stores [length V] at the in/out capacity and hands the destination
    buffer back as it was; and whenever [get] of that key returns [1] or
    [0] (Ok) the in/out capacity holds [length V]. *)
Theorem get_reports_required_length db K e out_buf cap :
  reachable db ->
  live db K e ->
  ((cap < length (entry_data e))%nat ->
   ditto_get (Some db) (Some K) out_buf (Some cap) =
   (1, out_buf, Some (length (entry_data e)))) /\
  (forall rc buf' n',
     ditto_get (Some db) (Some K) out_buf (Some cap) = (rc, buf', n') ->
     (rc = 0 \/ rc = 1) /\ n' = Some (length (entry_data e))).
Proof.
  intros [Ht _]%reachable_wf Hlive.
  pose proof (live_len _ _ _ Ht Hlive) as Hlen.
  apply (live_find _ _ _ Ht) in Hlive.
  rewrite ditto_get_find, Hlive, Hlen. split.
  - intros Hcap. destruct out_buf as [buf|]; [|done].
    by destruct (Nat.ltb_spec cap (length (entry_data e))) as [_|Hge]; [|lia].
  - intros rc buf' n'. destruct out_buf as [buf|].
    + destruct (cap <? length (entry_data e))%nat; intros [= <- <- <-]; auto.
    + intros [= <- <- <-]. auto.
Qed.

Lemma get_reports_required_length_witness :
  let db := default fresh_db
              (snd (fst (ditto_put (Some fresh_db) (Some [x61])
                           (Some [x01; x02; x03]) (World [] [])))) in
  let e := Entry [x61] [x01; x02; x03] 3 in
  reachable db /\ live db [x61] e /\
  ditto_get (Some db) (Some [x61]) (Some [x07; x07]) (Some 2%nat) =
  (1, Some [x07; x07], Some (length (entry_data e))).
Proof.
  intros db e.
  assert (Hr : reachable db).
  { apply (reach_put fresh_db (Some [x61]) (Some [x01; x02; x03])
             (World [] []) 0 db (World [] []) reachable_fresh).
    reflexivity. }
  assert (Hl : live db [x61] e).
  { exists (Z.to_nat (hash_string [x61])), [e].
    split; [reflexivity|]. split; [left | reflexivity]. }
  split; [exact Hr|]. split; [exact Hl|].
  apply (get_reports_required_length db [x61] e (Some [x07; x07]) 2%nat Hr Hl).
  simpl. lia.
Defined.

(** C10: in every store of the API, for a key [K] with a live entry of
    length [L], [get] with a [NULL] output buffer and a length pointer
    returns [1] (BufferTooSmall) and stores [L] at the length, whatever the
    length held before (also when it was [L] or more); there is no buffer,
    so nothing is copied. With a store, a key and a length pointer, a [NULL]
    output buffer never yields [-1] (ArgumentError). *)
Theorem get_null_buffer_queries_size db K e cap :
  reachable db ->
  live db K e ->
  ditto_get (Some db) (Some K) None (Some cap) = (1, None, Some (entry_len e)) /\
  (forall d k n, fst (fst (ditto_get (Some d) (Some k) None (Some n))) <> -1).
Proof.
  intros [Ht _]%reachable_wf Hlive. apply (live_find _ _ _ Ht) in Hlive. split.
  - by rewrite ditto_get_find, Hlive.
  - intros d k n. rewrite ditto_get_find.
    by destruct (chain_find _ k).
Qed.

Lemma get_null_buffer_queries_size_witness :
  let db := default fresh_db
              (snd (fst (ditto_put (Some fresh_db) (Some [x61])
                           (Some [x01; x02; x03]) (World [] [])))) in
  let e := Entry [x61] [x01; x02; x03] 3 in
  reachable db /\ live db [x61] e /\
  ditto_get (Some db) (Some [x61]) None (Some 50%nat) =
  (1, None, Some (entry_len e)).
Proof.
  intros db e.
  assert (Hr : reachable db).
  { apply (reach_put fresh_db (Some [x61]) (Some [x01; x02; x03])
             (World [] []) 0 db (World [] []) reachable_fresh).
    reflexivity. }
  assert (Hl : live db [x61] e).
  { exists (Z.to_nat (hash_string [x61])), [e].
    split; [reflexivity|]. split; [left | reflexivity]. }
  split; [exact Hr|]. split; [exact Hl|].
  apply (get_null_buffer_queries_size db [x61] e 50%nat Hr Hl).
Defined.

(** ** Errors *)

(** C6: no call applies part of its effect when it fails. For every handle
    and arguments, a [ditto_put] that returns a non-zero status hands the
    store back exactly as it was (table, entries and values included), and
    so do a failed [ditto_delete], [ditto_unsubscribe] and
    [ditto_subscribe]; a [ditto_get] that fails writes nothing to the
    destination buffer and a [ditto_open] that fails nothing to the handle. *)
Theorem failed_call_leaves_store_unchanged :
  (forall db key data w rc r w',
     ditto_put db key data w = ((rc, r), w') -> rc <> 0 -> r = db) /\
  (forall db key w rc r w',
     ditto_delete db key w = ((rc, r), w') -> rc <> 0 -> r = db) /\
  (forall db id rc r,
     ditto_unsubscribe db id = (rc, r) -> rc <> 0 -> r = db) /\
  (forall db cb user_data out rc r out',
     ditto_subscribe db cb user_data out = (rc, r, out') ->
     rc <> 0 -> r = db /\ out' = out) /\
  (forall db key out_buf n rc buf' n',
     ditto_get db key out_buf n = (rc, buf', n') -> rc <> 0 -> buf' = out_buf) /\
  (forall path out_db w rc out' w',
     ditto_open path out_db w = ((rc, out'), w') -> rc <> 0 -> out' = out_db).
Proof.
  split; [|split; [|split; [|split; [|split]]]].
  - intros db key data w rc r w' Hp Hnz.
    by destruct (proj2 (ditto_put_failure _ _ _ _ _ _ _ Hp) Hnz).
  - intros db key w rc r w' Hd Hnz.
    by destruct (proj2 (ditto_delete_failure _ _ _ _ _ _ Hd) Hnz).
  - intros [d|] id rc r Hu Hnz; [|by injection Hu as _ <-].
    by apply ditto_unsubscribe_spec in Hu as [(_ & -> & _)|[? _]].
  - intros [d|] cb ud out rc r out' Hsub Hnz; [|by injection Hsub as _ <- <-].
    by apply ditto_subscribe_spec in Hsub as [(_ & -> & -> & _)|[? _]].
  - intros [d|] [k|] out_buf [n|] rc buf' n' Hg Hnz;
      try by injection Hg as _ <- _.
    rewrite ditto_get_find in Hg. destruct (chain_find _ k) as [e|].
    + destruct out_buf as [buf|]; [|by injection Hg as _ <- _].
      destruct (n <? entry_len e)%nat; injection Hg as <- <- _; done.
    + by injection Hg as _ <- _.
  - intros path out_db w rc out' w'. unfold ditto_open.
    destruct path; [|by intros [= _ <- _]].
    destruct out_db; [|by intros [= _ <- _]].
    unfold bind, hash_table_create, bind.
    destruct (alloc w) as [[] w1]; simpl; [|by intros [= _ <- _]].
    destruct (alloc w1) as [[] w2]; simpl; [|by intros [= _ <- _]].
    by intros [= <- _ _].
Qed.

Lemma failed_call_leaves_store_unchanged_witness :
  let db := default fresh_db
              (snd (fst (ditto_put (Some fresh_db) (Some [x61])
                           (Some [x01; x02; x03]) (World [] [])))) in
  let res := ditto_put (Some db) (Some [x61]) (Some [x09]) (World [false] []) in
  fst (fst res) <> 0 /\ snd (fst res) = Some db.
Proof.
  intros db res.
  assert (Hnz : fst (fst res) <> 0) by (vm_compute; discriminate).
  split; [exact Hnz|].
  destruct failed_call_leaves_store_unchanged as (Hput & _).
  apply (Hput (Some db) (Some [x61]) (Some [x09]) (World [false] [])
           (fst (fst res)) (snd (fst res)) (snd res)); [|exact Hnz].
  reflexivity.
Defined.

Lemma requested_app (w w' : world) used :
  allocs w = used ++ allocs w' -> requested w w' = used.
Proof.
  intros H. unfold requested. rewrite H, length_app.
  replace (length used + length (allocs w') - length (allocs w'))%nat
    with (length used) by lia.
  by rewrite take_app_length.
Qed.

Lemma alloc_requested w ok w' :
  alloc w = (ok, w') ->
  exists used, allocs w = used ++ allocs w' /\ (ok = false <-> false ∈ used).
Proof.
  unfold alloc. destruct w as [[|b rest] cs]; cbn [allocs calls];
    intros [= <- <-]; cbn [allocs].
  - exists []. split; [done|]. split; [done|]. by intros ?%elem_of_nil.
  - exists [b]. split; [done|]. rewrite list_elem_of_singleton.
    split; by intros ->.
Qed.

(** The scan of [hash_table_put] fails exactly when its one request does. *)
Lemma put_chain_requested chain key data w r w' :
  put_chain chain key data w = (r, w') ->
  exists used, allocs w = used ++ allocs w' /\
    match r with
    | PutNoMemory => false ∈ used
    | PutUpdated _ => false ∉ used
    | PutAbsent => used = []
    end.
Proof.
  revert r w'. induction chain as [|e next IH]; simpl; intros r w'.
  - intros [= <- <-]. by exists [].
  - destruct (strcmp (entry_key e) key =? 0).
    + unfold bind. destruct (alloc w) as [ok w1] eqn:Ha.
      destruct (alloc_requested _ _ _ Ha) as (used & Hu & Hok).
      destruct ok; simpl; intros [= <- <-]; exists used; (split; [done|]).
      * intros Hin. by apply Hok in Hin.
      * by apply Hok.
    + unfold bind. destruct (put_chain next key data w) as [r1 w1] eqn:Hp.
      destruct (IH _ _ eq_refl) as (used & Hu & Hr).
      destruct r1; intros [= <- <-]; by exists used.
Qed.

(** [hash_table_put] returns [-1] exactly when a request it made failed. *)
Lemma hash_table_put_requested t key data w rc t' w' :
  hash_table_put t key data w = ((rc, t'), w') ->
  exists used, allocs w = used ++ allocs w' /\ (rc = -1 <-> false ∈ used).
Proof.
  unfold hash_table_put, bind.
  destruct (put_chain _ key data w) as [r w1] eqn:Hp.
  destruct (put_chain_requested _ _ _ _ _ _ Hp) as (used & Hu & Hr).
  destruct r as [chain'| |].
  - intros [= <- <- <-]. exists used. split; [done|]. by split.
  - intros [= <- <- <-]. exists used. split; [done|]. by split.
  - subst used. simpl in Hu.
    destruct (alloc w1) as [ok1 w2] eqn:Ha1.
    destruct (alloc_requested _ _ _ Ha1) as (u1 & Hu1 & Hok1).
    destruct ok1; simpl.
    + destruct (alloc w2) as [ok2 w3] eqn:Ha2.
      destruct (alloc_requested _ _ _ Ha2) as (u2 & Hu2 & Hok2).
      destruct (alloc w3) as [ok3 w4] eqn:Ha3.
      destruct (alloc_requested _ _ _ Ha3) as (u3 & Hu3 & Hok3).
      assert (Hno1 : false ∉ u1) by (intros Hin; by apply Hok1 in Hin).
      intros Hres. exists (u1 ++ u2 ++ u3).
      assert (Hw4 : w' = w4) by (by destruct ok2, ok3; injection Hres).
      subst w'. split; [by rewrite Hu, Hu1, Hu2, Hu3, <- !app_assoc|].
      rewrite !elem_of_app.
      destruct ok2, ok3; simpl in Hres; injection Hres as <- _.
      * split; [done|]. intros [Hin|[Hin|Hin]]; [done| |].
        -- by apply Hok2 in Hin.
        -- by apply Hok3 in Hin.
      * split; [|done]. intros _. right. right. by apply Hok3.
      * split; [|done]. intros _. right. left. by apply Hok2.
      * split; [|done]. intros _. right. left. by apply Hok2.
    + intros [= <- <- <-]. exists u1. split; [by rewrite Hu|].
      split; [|done]. intros _. by apply Hok1.
Qed.

(** C7, as amended: a [ditto_put] returns [0] or [-1]. It returns [-1] when
    the handle, the key or the data is [NULL], and, with all three present,
    exactly when an allocation that it requests fails ([requested]); the
    store is then unchanged. [-1] differs from the statuses [0] (Ok), [1]
    (BufferTooSmall) and [2] (NotFound), but it is one status for both
    causes. *)
Theorem put_failure_status db key data w :
  let rc := fst (fst (ditto_put db key data w)) in
  (rc = 0 \/ rc = -1) /\
  (db = None \/ key = None \/ data = None -> rc = -1) /\
  (rc = -1 -> snd (fst (ditto_put db key data w)) = db) /\
  (rc = -1 -> db <> None -> key <> None -> data <> None ->
   ~ no_alloc_failure w) /\
  (db <> None -> key <> None -> data <> None ->
   (false ∈ requested w (snd (ditto_put db key data w)) <-> rc = -1)) /\
  rc <> 1 /\ rc <> 2.
Proof.
  destruct (ditto_put db key data w) as [[rc r] w'] eqn:Hp. simpl.
  destruct (ditto_put_failure _ _ _ _ _ _ _ Hp) as [Hrc Hfail].
  split; [done|]. split; [|split; [|split; [|split]]].
  - intros Hnull. unfold ditto_put in Hp.
    destruct db as [d|]; [destruct key as [k|]; [destruct data as [v|]|]|];
      try by injection Hp as <- _ _.
    by destruct Hnull as [|[|]].
  - intros ->. by apply Hfail.
  - intros -> Hdb Hkey Hdata Hw.
    destruct db as [d|]; [|done]. destruct key as [k|]; [|done].
    destruct data as [v|]; [|done].
    destruct (ditto_put_served d k v w Hw) as (d' & w1 & Hp' & _).
    rewrite Hp in Hp'. by injection Hp'.
  - intros Hdb Hkey Hdata.
    destruct db as [d|]; [|done]. destruct key as [k|]; [|done].
    destruct data as [v|]; [|done].
    unfold ditto_put, bind in Hp.
    destruct (hash_table_put (table d) k v w) as [[rc1 t1] w1] eqn:Hput.
    destruct (hash_table_put_requested _ _ _ _ _ _ _ Hput) as (used & Hu & Hiff).
    cbn [fst snd] in Hp. unfold notify_subscribers in Hp.
    assert (Hw' : allocs w' = allocs w1 /\ rc = rc1).
    { destruct (rc1 =? 0); [rewrite notify_loop_calls in Hp|];
        by injection Hp as <- _ <-. }
    destruct Hw' as [Hw' ->]. rewrite <- Hw' in Hu.
    by rewrite (requested_app _ _ _ Hu).
  - lia.
Qed.

Lemma put_failure_status_witness :
  let w := World [true; false] [] in
  let res := ditto_put (Some fresh_db) (Some [x61]) (Some [x01]) w in
  requested w (snd res) = [true; false] /\
  fst (fst res) = -1 /\ snd (fst res) = Some fresh_db.
Proof.
  intros w res. split; [reflexivity|].
  destruct (put_failure_status (Some fresh_db) (Some [x61]) (Some [x01]) w)
    as (_ & _ & Hsame & _ & Hmem & _).
  assert (Hrc : fst (fst res) = -1).
  { apply Hmem; [done..|]. change (false ∈ [true; false]).
    apply elem_of_cons. right. apply elem_of_cons. by left. }
  split; [exact Hrc | exact (Hsame Hrc)].
Defined.

(** C7, as stated, fails: a put whose allocation fails and a put with a
    [NULL] key return the same status, [-1]. *)
Lemma put_allocation_failure_same_status_as_null_key :
  let no_memory := ditto_put (Some fresh_db) (Some [x61]) (Some [x01])
                     (World [false] []) in
  let null_key := ditto_put (Some fresh_db) None (Some [x01]) (World [] []) in
  fst (fst no_memory) = -1 /\ fst (fst null_key) = -1 /\
  ~ (fst (fst no_memory) <> fst (fst null_key)).
Proof. split; [reflexivity|]. split; [reflexivity|]. intros H. by apply H. Qed.

(** ** Presence of a key *)

Lemma not_live_find db K :
  table_wf (table db) ->
  (~ exists e, live db K e) <->
  chain_find (bucket (table db) (hash_string K)) K = None.
Proof.
  intros Ht. destruct (chain_find _ K) as [e|] eqn:Hf.
  - apply (live_find _ _ _ Ht) in Hf. split; [|done]. intros Hn. destruct Hn. by exists e.
  - split; [done|]. intros _ [e He]. apply (live_find _ _ _ Ht) in He. congruence.
Qed.

Lemma api_step_not_live K c db ids w db' ids' w' :
  ~ puts_key K c ->
  (~ exists e, live db K e) ->
  api_step c (db, ids) w = ((db', ids'), w') ->
  ~ exists e, live db' K e.
Proof.
  intros HQ Hn Hstep%api_step_cases [e He]. apply Hn.
  destruct c as [key data|key out_buf n|key|cb ud out|id].
  - destruct Hstep as (rc & Hp & _).
    destruct (ditto_put_live _ _ _ _ _ _ _ _ _ Hp He) as [(k & -> & Hk)|H];
      [by destruct HQ | done].
  - destruct Hstep as (-> & _). by exists e.
  - destruct Hstep as (rc & Hd & _). exists e.
    by apply (ditto_delete_live _ _ _ _ _ _ _ _ Hd).
  - destruct Hstep as (rc & out' & Hs & _). exists e.
    by apply ditto_subscribe_spec in Hs
      as [(_ & [= <-] & _)|(_ & _ & _ & i & s & _ & _ & _ & [= ->])].
  - destruct Hstep as (rc & Hu & _). exists e.
    by apply ditto_unsubscribe_spec in Hu
      as [(_ & [= <-] & _)|(_ & i & s & _ & _ & _ & _ & [= ->])].
Qed.

(** C8, as amended: in every store of the API, [get (K)] returns [2]
    (NotFound) exactly when the table holds no live entry for [K]. There is
    none in a store just opened and none after a successful delete of [K],
    and this stays so through any calls that do not put [K]: [get (K)] then
    returns [2]; with memory available, [put (K, V)], [delete (K)] and
    [get (K)] return [0], [0] and [2]. A key stored with a value of length
    zero is present: [get (K)] into a destination buffer returns [0] (Ok)
    and the length [0] whatever the capacity, [get (K)] without a
    destination buffer ([NULL]) returns [1] (BufferTooSmall) and the length
    [0] whatever the capacity, neither of them [2]; and a put of the empty
    value, which succeeds with memory available, makes it so. *)
Theorem get_not_found_iff_no_live_entry db K out_buf cap :
  reachable db ->
  (fst (fst (ditto_get (Some db) (Some K) out_buf (Some cap))) = 2 <->
   ~ exists e, live db K e) /\
  (~ exists e, live fresh_db K e) /\
  (forall w db' w',
     ditto_delete (Some db) (Some K) w = ((0, Some db'), w') ->
     ~ exists e, live db' K e) /\
  ((~ exists e, live db K e) ->
   forall cs ids w db' ids' w',
     Forall (fun c => ~ puts_key K c) cs ->
     run_api cs (db, ids) w = ((db', ids'), w') ->
     ditto_get (Some db') (Some K) out_buf (Some cap) =
     (2, out_buf, Some cap)) /\
  (forall e buf,
     live db K e -> entry_len e = 0%nat ->
     ditto_get (Some db) (Some K) (Some buf) (Some cap) =
     (0, Some buf, Some 0%nat)) /\
  (forall w db' w' buf,
     ditto_put (Some db) (Some K) (Some []) w = ((0, Some db'), w') ->
     ditto_get (Some db') (Some K) (Some buf) (Some cap) =
     (0, Some buf, Some 0%nat)) /\
  (forall V w,
     no_alloc_failure w ->
     fst ((r1 <~ ditto_put (Some db) (Some K) (Some V) ;;
           r2 <~ ditto_delete (snd r1) (Some K) ;;
           ret (fst r1, fst r2,
                ditto_get (snd r2) (Some K) out_buf (Some cap))) w) =
     (0, 0, (2, out_buf, Some cap))) /\
  (forall e,
     live db K e -> entry_len e = 0%nat ->
     ditto_get (Some db) (Some K) None (Some cap) = (1, None, Some 0%nat)) /\
  (forall w,
     no_alloc_failure w ->
     exists db' w',
       ditto_put (Some db) (Some K) (Some []) w = ((0, Some db'), w') /\
       (exists e, live db' K e /\ entry_len e = 0%nat) /\
       (forall buf,
          ditto_get (Some db') (Some K) (Some buf) (Some cap) =
          (0, Some buf, Some 0%nat)) /\
       ditto_get (Some db') (Some K) None (Some cap) =
       (1, None, Some 0%nat)).
Proof.
  intros Hr. destruct (reachable_wf _ Hr) as [Ht Hs].
  assert (Hzero : forall w db' w',
            ditto_put (Some db) (Some K) (Some []) w = ((0, Some db'), w') ->
            exists k', chain_find (bucket (table db') (hash_string K)) K =
                       Some (Entry k' [] 0)).
  { intros w db' w' Hp.
    destruct (ditto_put_spec _ _ _ _ _ _ _ Hs Hp)
      as (d & [= <-] & _ & _ & _ & _ & Hok).
    destruct (Hok eq_refl) as (k & v & [= <-] & [= <-] & _ & _ & Hfind).
    exact (Hfind (proj1 Ht)). }
  split; [|split; [|split; [|split; [|split; [|split; [|split; [|split]]]]]]].
  - rewrite (not_live_find _ _ Ht), ditto_get_find.
    destruct (chain_find _ K) as [e|]; [|done].
    split; [|done]. destruct out_buf as [buf|]; [|done].
    by destruct (cap <? entry_len e)%nat.
  - intros (e & idx & chain & Hl & Hin & _).
    apply lookup_replicate in Hl as [-> _]. by apply elem_of_nil in Hin.
  - intros w db' w' Hd.
    destruct (ditto_delete_spec _ _ _ _ _ _ Hs Hd)
      as (d & [= <-] & _ & _ & _ & _ & _ & Hok).
    destruct (Hok eq_refl) as (k & [= <-] & _ & Hwf).
    destruct (Hwf Ht) as [Ht' Hnone]. by apply not_live_find.
  - intros Hn cs ids w db' ids' w' Hcs Hrun.
    destruct (run_api_invariant (fun c => ~ puts_key K c)
                (fun d _ _ => ~ exists e, live d K e)
                (fun c d i w0 d' i' w0' HQ _ =>
                   api_step_not_live K c d i w0 d' i' w0' HQ)
                cs db ids w db' ids' w' Hcs Hr Hn Hrun) as [Hr' Hn'].
    destruct (reachable_wf _ Hr') as [Ht' _].
    apply (not_live_find _ _ Ht') in Hn'. by rewrite ditto_get_find, Hn'.
  - intros e buf Hlive Hlen. apply (live_find _ _ _ Ht) in Hlive.
    rewrite ditto_get_find, Hlive, Hlen. simpl.
    destruct (Nat.ltb_spec cap 0) as [Hlt|_]; [lia|].
    unfold memcpy. by rewrite take_0, drop_0.
  - intros w db' w' buf Hp. destruct (Hzero _ _ _ Hp) as [k' Hf].
    rewrite ditto_get_find, Hf. simpl.
    destruct (Nat.ltb_spec cap 0) as [Hlt|_]; [lia|].
    unfold memcpy. by rewrite take_0, drop_0.
  - intros V w Hw. unfold bind.
    destruct (ditto_put_served db K V w Hw) as (db1 & w1 & Hp & _).
    rewrite Hp. cbn [fst snd].
    assert (Hr1 : reachable db1) by (by eapply reach_put).
    destruct (reachable_wf _ Hr1) as [Ht1 Hs1].
    destruct (ditto_put_spec _ _ _ _ _ _ _ Hs Hp)
      as (d & [= <-] & _ & _ & _ & _ & Hok).
    destruct (Hok eq_refl) as (k & v & [= <-] & [= <-] & _ & _ & Hfind).
    destruct (Hfind (proj1 Ht)) as [k' Hf].
    destruct (ditto_delete_found db1 K _ w1 Hs1 Hf) as (db2 & Hd).
    rewrite Hd. cbn [fst snd ret].
    destruct (ditto_delete_spec _ _ _ _ _ _ Hs1 Hd)
      as (d & [= <-] & _ & _ & _ & _ & _ & Hok2).
    destruct (Hok2 eq_refl) as (k2 & [= <-] & _ & Hwf).
    destruct (Hwf Ht1) as [_ Hnone]. by rewrite ditto_get_find, Hnone.
  - intros e Hlive Hlen. apply (live_find _ _ _ Ht) in Hlive.
    by rewrite ditto_get_find, Hlive, Hlen.
  - intros w Hw.
    destruct (ditto_put_served db K [] w Hw) as (db' & w' & Hp & _).
    exists db', w'. split; [done|]. destruct (Hzero _ _ _ Hp) as [k' Hf].
    assert (Hr' : reachable db') by (by eapply reach_put).
    destruct (reachable_wf _ Hr') as [Ht' _].
    split; [|split].
    + exists (Entry k' [] 0). split; [by apply live_find | done].
    + intros buf. rewrite ditto_get_find, Hf. simpl.
      destruct (Nat.ltb_spec cap 0) as [Hlt|_]; [lia|].
      unfold memcpy. by rewrite take_0, drop_0.
    + by rewrite ditto_get_find, Hf.
Qed.

(** C8, as stated, fails: for a key stored with a value of length zero a
    [get] without a destination buffer does not return [0] (Ok), whatever
    the capacity: it returns [1] (BufferTooSmall) with the length [0]. *)
Lemma get_zero_length_without_buffer_not_ok :
  let db := default fresh_db
              (snd (fst (ditto_put (Some fresh_db) (Some [x61]) (Some [])
                           (World [] [])))) in
  reachable db /\ live db [x61] (Entry [x61] [] 0) /\
  ditto_get (Some db) (Some [x61]) None (Some 0%nat) = (1, None, Some 0%nat) /\
  ditto_get (Some db) (Some [x61]) None (Some 8%nat) = (1, None, Some 0%nat) /\
  ~ (fst (fst (ditto_get (Some db) (Some [x61]) None (Some 8%nat))) = 0).
Proof.
  intros db. split.
  - apply (reach_put fresh_db (Some [x61]) (Some []) (World [] []) 0 db
             (World [] []) reachable_fresh).
    reflexivity.
  - split.
    + exists (Z.to_nat (hash_string [x61])), [Entry [x61] [] 0].
      split; [reflexivity|]. split; [left | reflexivity].
    + split; [reflexivity|]. split; [reflexivity|]. vm_compute. discriminate.
Qed.

(** ** Capacity of the slot table *)

Lemma subscribe_all_succeed reqs db :
  reachable db ->
  Forall (fun r => fst r <> NULL) reqs ->
  (length (active_subs db) + length reqs <= length (subscriptions db))%nat ->
  exists db',
    subscribe_all reqs (Some db) = (replicate (length reqs) 0, Some db') /\
    reachable db' /\
    length (active_subs db') = (length (active_subs db) + length reqs)%nat /\
    length (subscriptions db') = length (subscriptions db).
Proof.
  revert db. induction reqs as [|[cb ud] reqs IH]; intros db Hr Hvalid Hroom.
  - exists db. simpl. repeat split; [done | lia].
  - inversion Hvalid as [|? ? Hcb Hrest]; subst. simpl in Hcb, Hroom.
    destruct (subscribe_free_slot db cb ud 0 Hcb ltac:(lia)) as [db1 Hs].
    destruct (subscribe_active_subs _ _ _ _ _ _ Hs)
      as (before & after & Hold & Hnew).
    pose proof (subscribe_length _ _ _ _ _ _ _ Hs) as Hlen.
    assert (Hcount : length (active_subs db1) = S (length (active_subs db))).
    { rewrite Hold, Hnew, !length_app. simpl. lia. }
    destruct (IH db1) as (db' & Hall & Hr' & Hc' & Hl');
      [by eapply reach_subscribe | done | lia |].
    exists db'. cbn [subscribe_all length replicate]. rewrite Hs, Hall.
    repeat split; [done | lia | congruence].
Qed.

Lemma all_active db :
  length (active_subs db) = length (subscriptions db) ->
  Forall (fun s => sub_active s <> 0) (subscriptions db).
Proof.
  intros Hfull. apply Forall_forall. intros s Hin.
  destruct (decide (sub_active s <> 0)) as [|Hn]; [done|].
  pose proof (length_filter_lt (fun s => sub_active s <> 0) _ s Hin Hn) as Hlt.
  unfold active_subs in Hfull. lia.
Qed.

(** C4: in every store of the API with [k] active subscriptions, exactly
    [MAX_SUBSCRIPTIONS - k] further subscribes with a callback succeed when
    no unsubscribe intervenes ([MAX_SUBSCRIPTIONS = 100] of them on a store
    just opened); every subscribe after them returns [-1] (no slot
    available: a status, the store is unchanged); an unsubscribe then
    succeeds, and after any successful unsubscribe a subscribe succeeds
    again. *)
Theorem subscribe_capacity db reqs :
  reachable db ->
  Forall (fun r => fst r <> NULL) reqs ->
  (length (active_subs db) + length reqs)%nat = MAX_SUBSCRIPTIONS ->
  MAX_SUBSCRIPTIONS = 100%nat /\
  exists full,
    subscribe_all reqs (Some db) = (replicate (length reqs) 0, Some full) /\
    (forall cb user_data out,
       ditto_subscribe (Some full) cb user_data out = (-1, Some full, out)) /\
    (exists id freed, ditto_unsubscribe (Some full) id = (0, Some freed)) /\
    (forall id freed cb user_data o,
       ditto_unsubscribe (Some full) id = (0, Some freed) ->
       cb <> NULL ->
       exists again id',
         ditto_subscribe (Some freed) cb user_data (Some o) =
         (0, Some again, Some id')).
Proof.
  intros Hr Hvalid Hcount. split; [done|].
  destruct (reachable_wf _ Hr) as [_ [Hlen _]].
  destruct (subscribe_all_succeed reqs db Hr Hvalid ltac:(lia))
    as (full & Hall & Hrf & Hc & Hl).
  assert (Hfull : length (active_subs full) = length (subscriptions full))
    by lia.
  exists full. split; [done|]. split; [|split].
  - intros cb ud out. by apply subscribe_no_free_slot.
  - pose proof (all_active _ Hfull) as Hact.
    destruct (lookup_lt_is_Some_2 (subscriptions full) 0) as [s Hs].
    { rewrite Hl, Hlen. unfold MAX_SUBSCRIPTIONS. lia. }
    assert (Hin : s ∈ subscriptions full) by (by eapply list_elem_of_lookup_2).
    rewrite Forall_forall in Hact.
    destruct (list_find_elem_of
                (fun s' => sub_active s' <> 0 /\ sub_id s' = sub_id s)
                (subscriptions full) s Hin) as [[i s'] Hfind]; [by auto|].
    exists (sub_id s). unfold ditto_unsubscribe. rewrite Hfind. by eexists.
  - intros id freed cb ud o Hu Hcb.
    destruct (unsubscribe_active_subs _ _ _ Hu)
      as (before & s & after & _ & Hold & Hnew).
    pose proof (unsubscribe_length _ _ _ _ Hu) as Hlen'.
    destruct (subscribe_free_slot freed cb ud o Hcb) as [again Hs].
    { rewrite Hnew, Hlen', <- Hfull, Hold, !length_app. simpl. lia. }
    by exists again, (next_sub_id freed).
Qed.

Lemma subscribe_capacity_witness :
  let reqs := replicate 100 (1, NULL) in
  exists full,
    subscribe_all reqs (Some fresh_db) =
      (replicate (length reqs) 0, Some full) /\
    (forall cb user_data out,
       ditto_subscribe (Some full) cb user_data out = (-1, Some full, out)).
Proof.
  intros reqs.
  destruct (subscribe_capacity fresh_db reqs reachable_fresh)
    as (_ & full & Hall & Hno & _).
  - apply Forall_replicate. discriminate.
  - reflexivity.
  - exists full. split; [exact Hall | exact Hno].
Defined.

(** ** Subscription ids *)

Lemma wrap_int32_small z : INT32_MIN <= z <= INT32_MAX -> wrap_int32 z = z.
Proof.
  unfold wrap_int32, INT32_MIN, INT32_MAX. intros Hz.
  rewrite Z.mod_small by lia. lia.
Qed.

Lemma fresh_registry_inv : registry_inv fresh_db [].
Proof.
  split; [done|]. split; [done|].
  assert (Hnone : active_subs fresh_db = []) by reflexivity.
  rewrite Hnone. split; [constructor | constructor].
Qed.

(** One call keeps the registry in order as long as the ids handed out
    fit the counter. *)
Lemma api_step_registry c db ids w db' ids' w' :
  api_step c (db, ids) w = ((db', ids'), w') ->
  (length ids <= length ids')%nat /\
  (Z.of_nat (length ids') <= INT32_MAX ->
   registry_inv db ids -> registry_inv db' ids').
Proof.
  intros Hstep%api_step_cases.
  assert (Hframe : forall d, subscriptions d = subscriptions db ->
            next_sub_id d = next_sub_id db ->
            registry_inv db ids -> registry_inv d ids).
  { intros d Hsubs Hnext (H1 & H2 & H3 & H4). unfold registry_inv, active_subs.
    rewrite Hsubs, Hnext. done. }
  destruct c as [key data|key out_buf n|key|cb ud out|id].
  - destruct Hstep as (rc & Hp & ->). split; [done|]. intros _.
    unfold ditto_put in Hp.
    destruct key as [k|]; [destruct data as [v|]|];
      try (by injection Hp as _ <- _).
    unfold bind in Hp. destruct (hash_table_put _ k v w) as [[rc1 t1] w1].
    cbn [fst snd] in Hp. destruct (if rc1 =? 0 then _ else _) as [[] w2].
    injection Hp as _ <- _. by apply Hframe.
  - by destruct Hstep as (-> & -> & _).
  - destruct Hstep as (rc & Hd & ->). split; [done|]. intros _.
    unfold ditto_delete in Hd.
    destruct key as [k|]; [|by injection Hd as _ <- _].
    unfold bind in Hd. destruct (hash_table_delete _ k) as [rc1 t1].
    cbn [fst snd] in Hd. destruct (if rc1 =? 0 then _ else _) as [[] w2].
    injection Hd as _ <- _. by apply Hframe.
  - destruct Hstep as (rc & out' & Hs & _ & ->).
    pose proof Hs as Hspec. apply ditto_subscribe_spec in Hspec
      as [(-> & [= <-] & _)|(-> & _ & -> & i & s & _ & _ & _ & [= Hdb'])];
      [done|].
    destruct (subscribe_active_subs _ _ _ _ _ _ Hs)
      as (before & after & Hold & Hnew).
    unfold option_list. cbn [Z.eqb option_rect]. rewrite length_app.
    cbn [length]. split; [lia|]. intros Hfit (H1 & H2 & H3 & H4).
    assert (Hnext : next_sub_id db = Z.of_nat (length ids) + 1)
      by (apply H2; lia).
    rewrite Hnext in *. unfold registry_inv. rewrite !length_app.
    cbn [length]. split; [|split; [|split]].
    + intros j x Hj. apply lookup_app_Some in Hj as [Hj|[Hge Hj]]; [by apply H1|].
      apply list_lookup_singleton_Some in Hj as [Hj Hx]. lia.
    + intros Hlt. rewrite Hdb'. cbn [next_sub_id].
      rewrite wrap_int32_small; unfold INT32_MIN, INT32_MAX in *; lia.
    + rewrite Hnew. rewrite Hold in H3.
      apply Forall_app in H3 as [Hb Ha]. apply Forall_app. split; [|constructor].
      * eapply Forall_impl; [exact Hb|]. simpl. lia.
      * simpl. lia.
      * eapply Forall_impl; [exact Ha|]. simpl. lia.
    + rewrite Hnew, fmap_app, fmap_cons. apply NoDup_insert_middle.
      rewrite Hold, fmap_app in H4. split; [|done].
      rewrite <- fmap_app, <- Hold. intros Hin.
      apply list_elem_of_fmap in Hin as (s' & Hid & Hin').
      rewrite Forall_forall in H3. specialize (H3 s' Hin').
      simpl in Hid. lia.
  - destruct Hstep as (rc & Hu & _ & ->). split; [done|].
    intros _ (H1 & H2 & H3 & H4).
    pose proof Hu as Hspec. apply ditto_unsubscribe_spec in Hspec
      as [(_ & [= <-] & _)|(-> & i & s & _ & _ & _ & _ & [= Hdb'])]; [done|].
    destruct (unsubscribe_active_subs _ _ _ Hu)
      as (before & s' & after & _ & Hold & Hnew).
    split; [done|]. split; [by rewrite Hdb'|]. rewrite Hnew. split.
    + rewrite Hold in H3. apply Forall_app in H3 as [Hb Ha].
      apply Forall_app. split; [done|]. by inversion Ha.
    + rewrite Hold, fmap_app, fmap_cons in H4.
      apply NoDup_insert_middle in H4 as [_ H4]. by rewrite fmap_app.
Qed.

Lemma run_api_registry cs db ids w db' ids' w' :
  reachable db ->
  run_api cs (db, ids) w = ((db', ids'), w') ->
  (length ids <= length ids')%nat /\
  (Z.of_nat (length ids') <= INT32_MAX ->
   registry_inv db ids -> registry_inv db' ids').
Proof.
  intros Hr Hrun.
  destruct (run_api_invariant (fun _ => True)
    (fun d i _ => (length ids <= length i)%nat /\
                  (Z.of_nat (length i) <= INT32_MAX ->
                   registry_inv db ids -> registry_inv d i)))
    with (cs := cs) (db := db) (ids := ids) (w := w)
         (db' := db') (ids' := ids') (w' := w') as [_ H]; try done.
  - intros c d i w0 d' i' w0' _ _ [Hle Hinv] Hstep.
    destruct (api_step_registry _ _ _ _ _ _ _ Hstep) as [Hle' Hinv'].
    split; [lia|]. intros Hfit H0. apply Hinv'; [done|]. apply Hinv; [lia|done].
  - by apply Forall_true.
Qed.

(** X13: until the counter overflows the ids are in order: on a store just
    opened, through any sequence of API calls in which at most
    [INT32_MAX = 2^31 - 1] subscribes succeed, the ids are handed out
    sequentially from [1] (the [i]-th successful subscribe, counted from
    [0], returns [i + 1]), hence strictly increase and are never handed out
    twice; the active subscriptions carry pairwise distinct ids, each one an
    id handed out. *)
Theorem subscription_ids_sequential cs w db ids w' :
  run_api cs (fresh_db, []) w = ((db, ids), w') ->
  Z.of_nat (length ids) <= INT32_MAX ->
  (forall (i : nat) (id : Z), ids !! i = Some id -> id = Z.of_nat i + 1) /\
  (forall (i j : nat) (a b : Z),
     ids !! i = Some a -> ids !! j = Some b -> (i < j)%nat -> a < b) /\
  NoDup ids /\
  NoDup (sub_id <$> active_subs db) /\
  (forall s, s ∈ active_subs db -> sub_id s ∈ ids).
Proof.
  intros Hrun Hfit.
  destruct (run_api_registry _ _ _ _ _ _ _ reachable_fresh Hrun) as [_ Hinv].
  destruct (Hinv Hfit fresh_registry_inv) as (H1 & _ & H3 & H4).
  split; [done|]. split; [|split; [|split; [done|]]].
  - intros i j a b Ha Hb Hij. apply H1 in Ha, Hb. lia.
  - apply NoDup_alt. intros i j x Hi Hj. apply H1 in Hi, Hj. lia.
  - intros s Hin. rewrite Forall_forall in H3. specialize (H3 s Hin).
    destruct (lookup_lt_is_Some_2 ids (Z.to_nat (sub_id s - 1))) as [x Hx];
      [lia|].
    pose proof (H1 _ _ Hx) as Hid. rewrite Z2Nat.id in Hid by lia.
    apply list_elem_of_lookup. exists (Z.to_nat (sub_id s - 1)).
    rewrite Hx. f_equal. lia.
Qed.

Lemma subscription_ids_sequential_witness :
  let cs := [Subscribe 7 9 (Some 0); Subscribe 8 9 (Some 0); Unsubscribe 1;
             Subscribe 7 0 (Some 0)] in
  let res := run_api cs (fresh_db, []) (World [] []) in
  snd (fst res) = [1; 2; 3] /\ NoDup (snd (fst res)).
Proof.
  intros cs res. split; [reflexivity|].
  apply (subscription_ids_sequential cs (World [] []) (fst (fst res))
           (snd (fst res)) (snd res)).
  - reflexivity.
  - vm_compute. discriminate.
Defined.

(** *** The counter wraps *)

Lemma churn_churned n :
  0 <= n -> n + 2 <= INT32_MAX -> churn (churned_db n) = churned_db (n + 1).
Proof.
  intros Hn Hfit. unfold churn, churned_db, ditto_subscribe, ditto_unsubscribe.
  cbn [Z.eqb NULL subscriptions table next_sub_id default].
  rewrite list_find_head by done.
  cbn [default subscriptions table next_sub_id insert list_insert].
  rewrite list_find_head by done.
  cbn [default subscriptions table next_sub_id insert list_insert sub_id].
  rewrite wrap_int32_small by (unfold INT32_MIN, INT32_MAX in *; lia).
  unfold id. f_equal; [|lia]. f_equal. f_equal. lia.
Qed.

Lemma churn_iter (n : N) :
  Z.of_N n + 1 <= INT32_MAX ->
  N.iter n churn fresh_db = churned_db (Z.of_N n).
Proof.
  induction n as [|n IH] using N.peano_ind; intros Hfit; [reflexivity|].
  rewrite N.iter_succ, IH by lia. rewrite churn_churned by lia.
  f_equal. lia.
Qed.

Lemma churn_reachable db : reachable db -> reachable (churn db).
Proof.
  intros Hr. unfold churn.
  destruct (ditto_subscribe (Some db) 1 NULL (Some 0)) as [[rc r] out] eqn:Hs.
  assert (Hr1 : exists db1, r = Some db1 /\ reachable db1) .
  { pose proof Hs as Hspec. apply ditto_subscribe_spec in Hspec
      as [(_ & -> & _)|(_ & _ & _ & i & s & _ & _ & _ & ->)].
    - by exists db.
    - eexists. split; [done|]. by eapply reach_subscribe. }
  destruct Hr1 as (db1 & -> & Hr1).
  destruct (ditto_unsubscribe (Some db1) (default 0 out)) as [rc2 r2] eqn:Hu.
  pose proof Hu as Hspec. apply ditto_unsubscribe_spec in Hspec
    as [(_ & -> & _)|(_ & i & s & _ & _ & _ & _ & ->)]; [done|].
  simpl. by eapply reach_unsubscribe.
Qed.

(** C5: subscription ids are meant to be sequential from [1] and strictly
    increasing in every state that subscribes and unsubscribes can reach,
    but the [int32_t] counter overflows: after 2147483646 subscriptions
    taken and released on a store just opened, the next two successful
    subscribes return the ids 2147483647 and then -2147483648, which is
    neither the next id nor a larger one, nor an id [>= 1] as ditto.h
    documents. *)
Lemma subscription_ids_wrap_around :
  reachable (N.iter 2147483646 churn fresh_db) /\
  exists db1 db2,
    ditto_subscribe (Some (N.iter 2147483646 churn fresh_db)) 1 NULL (Some 0) =
      (0, Some db1, Some 2147483647) /\
    ditto_subscribe (Some db1) 1 NULL (Some 0) =
      (0, Some db2, Some (-2147483648)) /\
    ~ (2147483647 < -2147483648) /\ ~ (1 <= -2147483648).
Proof.
  split.
  - exact (N.iter_ind ditto_db churn fresh_db (fun _ d => reachable d)
             reachable_fresh (fun _ d H => churn_reachable d H) 2147483646%N).
  - rewrite churn_iter by (vm_compute; discriminate).
    exists (Db (table fresh_db)
              (Subscription 2147483647 1 NULL 1 ::
               replicate (MAX_SUBSCRIPTIONS - 1) zero_subscription)
              (-2147483648)),
           (Db (table fresh_db)
              (Subscription 2147483647 1 NULL 1 ::
               Subscription (-2147483648) 1 NULL 1 ::
               replicate (MAX_SUBSCRIPTIONS - 2) zero_subscription)
              (-2147483647)).
    split; [vm_compute; reflexivity|]. split; [vm_compute; reflexivity|]. lia.
Qed.

(** ** Unsubscribe *)

Lemma fan_out_subs db key :
  Forall (fun c => exists s, s ∈ active_subs db /\ c = call_of key s)
         (fan_out db key).
Proof.
  apply Forall_forall. intros c Hin. unfold fan_out in Hin.
  apply list_elem_of_fmap in Hin as (s & -> & Hin). by exists s.
Qed.

(** While no active subscription carries the id [S], a call makes no
    invocation for [S], and it leaves things so unless it is a subscribe
    that hands out [S]. *)
Lemma api_step_released S c db ids w db' ids' w' :
  reachable db ->
  api_step c (db, ids) w = ((db', ids'), w') ->
  S ∉ ids' ->
  Forall (fun s => sub_id s <> S) (active_subs db) ->
  (S ∉ ids) /\
  Forall (fun s => sub_id s <> S) (active_subs db') /\
  exists new, calls w' = calls w ++ new /\
    Forall (fun c => call_sub c <> S) new.
Proof.
  intros Hr Hstep%api_step_cases Hout Hrel.
  destruct (reachable_wf _ Hr) as [_ Hs].
  assert (Hfan : forall k, Forall (fun c => call_sub c <> S) (fan_out db k)).
  { intros k. eapply Forall_impl; [apply fan_out_subs|].
    simpl. intros cl (s & Hin & ->). simpl.
    rewrite Forall_forall in Hrel. by apply Hrel. }
  assert (Hsame : forall d, subscriptions d = subscriptions db ->
            Forall (fun s => sub_id s <> S) (active_subs d)).
  { intros d Hd. unfold active_subs. by rewrite Hd. }
  assert (Hquiet : forall w0, calls w0 = calls w ->
            exists new, calls w0 = calls w ++ new /\
              Forall (fun c => call_sub c <> S) new).
  { intros w0 ->. exists []. by rewrite app_nil_r. }
  destruct c as [key data|key out_buf n|key|cb ud out|id].
  - destruct Hstep as (rc & Hp & ->). split; [done|].
    destruct (ditto_put_spec _ _ _ _ _ _ _ Hs Hp)
      as (d & [= <-] & Hsubs & _ & _ & Hfail & Hok).
    split; [by apply Hsame|].
    destruct (decide (rc = 0)) as [Hz|Hnz].
    + destruct (Hok Hz) as (k & v & _ & _ & Hc & _). by exists (fan_out db k).
    + apply Hquiet. by destruct (Hfail Hnz).
  - destruct Hstep as (-> & -> & ->). by auto.
  - destruct Hstep as (rc & Hd & ->). split; [done|].
    destruct (ditto_delete_spec _ _ _ _ _ _ Hs Hd)
      as (d & [= <-] & Hsubs & _ & _ & _ & Hfail & Hok).
    split; [by apply Hsame|].
    destruct (decide (rc = 0)) as [Hz|Hnz].
    + destruct (Hok Hz) as (k & _ & Hc & _). by exists (fan_out db k).
    + apply Hquiet. by destruct (Hfail Hnz).
  - destruct Hstep as (rc & out' & Hsub & -> & ->).
    pose proof Hsub as Hspec. apply ditto_subscribe_spec in Hspec
      as [(-> & [= <-] & _)|(-> & _ & -> & _)]; [by auto|].
    unfold option_list in Hout. cbn [Z.eqb option_rect] in Hout.
    apply not_elem_of_app in Hout as [Hout Hnew].
    apply not_elem_of_cons in Hnew as [Hnew _].
    split; [done|]. split; [|by auto].
    destruct (subscribe_active_subs _ _ _ _ _ _ Hsub)
      as (before & after & Hold & ->).
    rewrite Hold in Hrel. apply Forall_app in Hrel as [Hb Ha].
    apply Forall_app. split; [done|]. constructor; [|done]. simpl. congruence.
  - destruct Hstep as (rc & Hu & -> & ->). split; [done|]. split; [|by auto].
    pose proof Hu as Hspec. apply ditto_unsubscribe_spec in Hspec
      as [(_ & [= <-] & _)|(-> & _)]; [done|].
    destruct (unsubscribe_active_subs _ _ _ Hu)
      as (before & s & after & _ & Hold & ->).
    rewrite Hold in Hrel. apply Forall_app in Hrel as [Hb Ha].
    apply Forall_app. split; [done|]. by inversion Ha.
Qed.

(** Where active ids are pairwise distinct, the id of an active
    subscription names that one only. *)
Lemma distinct_ids_name_one db s :
  NoDup (sub_id <$> active_subs db) -> s ∈ active_subs db ->
  names_one_subscription db (sub_id s).
Proof.
  intros Hnodup Hin. unfold names_one_subscription.
  apply list_elem_of_split in Hin as (l1 & l2 & Hl). rewrite Hl in *.
  rewrite fmap_app, fmap_cons in Hnodup.
  apply NoDup_insert_middle in Hnodup as [Hnot _].
  assert (Hnone : forall l, (forall x, x ∈ l -> x ∈ l1 ++ l2) ->
            filter (fun s' => sub_id s' = sub_id s) l = []).
  { intros l Hsub. induction l as [|x l IH]; [done|].
    rewrite filter_cons, decide_False.
    - apply IH. intros y Hy. apply Hsub. by right.
    - intros Heq. apply Hnot. rewrite <- fmap_app, <- Heq.
      apply list_elem_of_fmap. exists x. split; [done|]. apply Hsub. left. }
  rewrite filter_app, filter_cons, decide_True by done.
  rewrite (Hnone l1), (Hnone l2); [done | |].
  - intros x Hx. apply elem_of_app. by right.
  - intros x Hx. apply elem_of_app. by left.
Qed.

(** Until the counter overflows, the id that an unsubscribe accepts names
    one active subscription. *)
Lemma accepted_id_names_one cs w db ids w' S db1 :
  run_api cs (fresh_db, []) w = ((db, ids), w') ->
  Z.of_nat (length ids) <= INT32_MAX ->
  ditto_unsubscribe (Some db) S = (0, Some db1) ->
  names_one_subscription db S.
Proof.
  intros Hrun Hfit Hu.
  destruct (run_api_registry _ _ _ _ _ _ _ reachable_fresh Hrun) as [_ Hinv].
  destruct (Hinv Hfit fresh_registry_inv) as (_ & _ & _ & Hnodup).
  destruct (unsubscribe_active_subs _ _ _ Hu)
    as (before & s & after & <- & Hold & _).
  apply distinct_ids_name_one; [done|].
  rewrite Hold. apply elem_of_app. right. left.
Qed.

(** Where the id [S] names exactly one active subscription, as every
    accepted id does until the counter overflows ([accepted_id_names_one]):
    after [unsubscribe (S)] has returned [0], a second [unsubscribe (S)]
    returns [-1] (subscription not found) and changes nothing; a fan-out is
    the one of before without the call for [S]; and no later put or delete,
    through any sequence of API calls that does not hand out the id [S]
    again, makes a call for [S]. *)
Theorem unsubscribed_is_not_notified db S db1 :
  reachable db ->
  names_one_subscription db S ->
  ditto_unsubscribe (Some db) S = (0, Some db1) ->
  ditto_unsubscribe (Some db1) S = (-1, Some db1) /\
  (forall key, exists before s after,
     sub_id s = S /\
     fan_out db key = before ++ call_of key s :: after /\
     fan_out db1 key = before ++ after /\
     Forall (fun c => call_sub c <> S) (before ++ after)) /\
  (forall cs w db2 ids2 w2,
     run_api cs (db1, []) w = ((db2, ids2), w2) ->
     S ∉ ids2 ->
     exists new, calls w2 = calls w ++ new /\
       Forall (fun c => call_sub c <> S) new).
Proof.
  intros Hr Hone Hu.
  destruct (unsubscribe_active_subs _ _ _ Hu)
    as (before & s & after & Hid & Hold & Hnew).
  assert (Hrel : Forall (fun s' => sub_id s' <> S) (active_subs db1)).
  { unfold names_one_subscription in Hone.
    rewrite Hold, filter_app, filter_cons, decide_True in Hone by done.
    rewrite length_app in Hone. cbn [length] in Hone.
    rewrite Hnew. apply Forall_app.
    split; apply (filter_nil_Forall (fun s' => sub_id s' = S)).
    - apply length_zero_iff_nil. lia.
    - apply length_zero_iff_nil. lia. }
  assert (Hr1 : reachable db1) by (by eapply reach_unsubscribe).
  split; [|split].
  - destruct (ditto_unsubscribe (Some db1) S) as [rc r] eqn:Hu2.
    apply ditto_unsubscribe_spec in Hu2
      as [(-> & -> & _)|(_ & i & s' & Hl & Ha & Hs' & _)]; [done|].
    rewrite Forall_forall in Hrel. destruct (Hrel s'); [|done].
    apply list_elem_of_filter. split; [done|].
    by eapply list_elem_of_lookup_2.
  - intros key. exists (call_of key <$> before), s, (call_of key <$> after).
    unfold fan_out. rewrite Hold, Hnew, !fmap_app, fmap_cons.
    split; [done|]. split; [done|]. split; [done|].
    rewrite <- fmap_app, <- Hnew. apply Forall_fmap.
    eapply Forall_impl; [exact Hrel|]. done.
  - intros cs w db2 ids2 w2 Hrun Hout.
    destruct (run_api_invariant (fun _ => True)
      (fun d i w' => S ∉ i ->
         Forall (fun s => sub_id s <> S) (active_subs d) /\
         exists new, calls w' = calls w ++ new /\
           Forall (fun c => call_sub c <> S) new))
      with (cs := cs) (db := db1) (ids := @nil Z) (w := w)
           (db' := db2) (ids' := ids2) (w' := w2) as [_ H]; try done.
    + intros c d i w0 d' i' w0' _ Hrd HP Hstep Hi'.
      assert (Hi : S ∉ i).
      { apply api_step_cases in Hstep.
        destruct c; try (by destruct Hstep as (? & ? & ?); subst);
          try (by destruct Hstep as (? & ? & ? & ?); subst).
        destruct Hstep as (rc & out' & _ & _ & ->).
        destruct (rc =? 0); [|done]. by apply not_elem_of_app in Hi' as []. }
      destruct (HP Hi) as (Hrel0 & new0 & Hc0 & Hq0).
      destruct (api_step_released S _ _ _ _ _ _ _ Hrd Hstep Hi' Hrel0)
        as (_ & Hrel' & new & Hc & Hq).
      split; [done|]. exists (new0 ++ new).
      rewrite Hc, Hc0, <- app_assoc. split; [done|]. by apply Forall_app.
    + by apply Forall_true.
    + intros _. split; [done|]. exists []. by rewrite app_nil_r.
    + by destruct (H Hout) as [_ Hnew'].
Qed.

Lemma unsubscribed_is_not_notified_witness :
  let db := default fresh_db
              (snd (fst (ditto_subscribe (Some fresh_db) 7 9 (Some 0)))) in
  let db1 := default db (snd (ditto_unsubscribe (Some db) 1)) in
  let cs := [Put (Some [x61]) (Some [x01]); Subscribe 8 0 (Some 0);
             Delete (Some [x61])] in
  let res := run_api cs (db1, []) (World [] []) in
  reachable db /\ names_one_subscription db 1 /\
  (1 ∉ snd (fst res)) /\
  ditto_unsubscribe (Some db1) 1 = (-1, Some db1) /\
  exists new, calls (snd res) = calls (World [] []) ++ new /\
    Forall (fun c => call_sub c <> 1) new.
Proof.
  intros db db1 cs res.
  assert (Hr : reachable db).
  { apply (reach_subscribe fresh_db 7 9 (Some 0) 0 db (Some 1) reachable_fresh).
    reflexivity. }
  assert (Hn : names_one_subscription db 1) by reflexivity.
  assert (Hout : 1 ∉ snd (fst res)).
  { change (1 ∉ [2]). apply not_elem_of_cons. split; [discriminate|].
    apply not_elem_of_nil. }
  split; [exact Hr|]. split; [exact Hn|]. split; [exact Hout|].
  destruct (unsubscribed_is_not_notified db 1 db1 Hr Hn eq_refl)
    as (Hagain & _ & Hlater).
  split; [exact Hagain|].
  apply (Hlater cs (World [] []) (fst (fst res)) (snd (fst res)) (snd res));
    [reflexivity | exact Hout].
Defined.

(** *** After the counter has wrapped *)

Lemma wrap_int32_succ z : wrap_int32 (wrap_int32 z + 1) = wrap_int32 (z + 1).
Proof.
  unfold wrap_int32.
  replace ((z + 2 ^ 31) mod 2 ^ 32 - 2 ^ 31 + 1 + 2 ^ 31)
    with ((z + 2 ^ 31) mod 2 ^ 32 + 1) by lia.
  rewrite Z.add_mod_idemp_l by lia. do 2 f_equal. lia.
Qed.

Lemma wrap_int32_not_1 z : 1 < z <= 2 ^ 32 -> wrap_int32 z <> 1.
Proof.
  intros Hz. unfold wrap_int32.
  destruct (Z_lt_dec (z + 2 ^ 31) (2 ^ 32)) as [Hlt|Hge].
  - rewrite Z.mod_small by lia. lia.
  - replace (z + 2 ^ 31) with (z + 2 ^ 31 - 2 ^ 32 + 1 * 2 ^ 32) by lia.
    rewrite Z.mod_add by lia. rewrite Z.mod_small by lia. lia.
Qed.

(** One more subscription taken and released beside the one held. *)
Lemma churn_held n :
  wrap_int32 (2 + n) <> 1 -> churn (held_db n) = held_db (n + 1).
Proof.
  intros Hc. unfold churn, held_db, ditto_subscribe.
  cbn [Z.eqb NULL subscriptions table next_sub_id].
  rewrite list_find_next by done.
  cbn [default subscriptions table next_sub_id insert list_insert].
  unfold ditto_unsubscribe. cbn [subscriptions table next_sub_id].
  rewrite list_find_next; [|intros [_ Heq]; cbn in Heq; congruence | done].
  cbn [default subscriptions table next_sub_id insert list_insert sub_id].
  rewrite wrap_int32_succ. unfold id.
  replace (1 + (n + 1)) with (2 + n) by lia.
  by replace (2 + (n + 1)) with (2 + n + 1) by lia.
Qed.

Lemma churn_held_iter (n : N) :
  Z.of_N n + 2 <= 2 ^ 32 ->
  N.iter n churn (held_db 1) = held_db (1 + Z.of_N n).
Proof.
  induction n as [|n IH] using N.peano_ind; intros Hfit; [reflexivity|].
  rewrite N.iter_succ, IH by lia.
  rewrite churn_held by (apply wrap_int32_not_1; lia).
  f_equal. lia.
Qed.

Lemma churn_first :
  churn (Db (table fresh_db)
           (Subscription 1 7 9 1 ::
            replicate (MAX_SUBSCRIPTIONS - 1) zero_subscription) 2) =
  held_db 1.
Proof. vm_compute. reflexivity. Qed.

(** C9: after a successful [unsubscribe (S)] no mutation is meant to call
    that subscription and a second [unsubscribe (S)] is meant to return
    [-1] (not found), but the [int32_t] id counter wraps around and hands
    out an id that is still in use. On a store just opened a first
    subscription [(7, 9)] gets the id [1] and is kept; after 4294967295
    subscriptions taken and released beside it the counter is back at [1],
    and a subscribe of [(8, 10)] returns the id [1] as well. Then
    [unsubscribe (1)] returns [0] and releases the first subscription: a put
    still calls [(8, 10)], the subscription that was handed the id [1], and
    a second [unsubscribe (1)] returns [0], not [-1]. *)
Lemma unsubscribe_after_wrap_around :
  exists db0,
    ditto_subscribe (Some fresh_db) 7 9 (Some 0) = (0, Some db0, Some 1) /\
    reachable (N.iter 4294967295 churn db0) /\
    exists db1 db2 db3,
      ditto_subscribe (Some (N.iter 4294967295 churn db0)) 8 10 (Some 0) =
        (0, Some db1, Some 1) /\
      active_subs db1 = [Subscription 1 7 9 1; Subscription 1 8 10 1] /\
      ditto_unsubscribe (Some db1) 1 = (0, Some db2) /\
      active_subs db2 = [Subscription 1 8 10 1] /\
      calls (snd (ditto_put (Some db2) (Some [x61]) (Some [x01])
                    (World [] []))) = [Call 1 8 10 [x61]] /\
      ditto_unsubscribe (Some db2) 1 = (0, Some db3) /\
      ditto_unsubscribe (Some db2) 1 <> (-1, Some db2).
Proof.
  exists (Db (table fresh_db)
            (Subscription 1 7 9 1 ::
             replicate (MAX_SUBSCRIPTIONS - 1) zero_subscription) 2).
  split; [reflexivity|]. split.
  - apply (N.iter_ind ditto_db churn _ (fun _ d => reachable d));
      [|intros _ d H; by apply churn_reachable].
    by apply (reach_subscribe fresh_db 7 9 (Some 0) 0 _ (Some 1)
                reachable_fresh).
  - replace 4294967295%N with (N.succ 4294967294) by reflexivity.
    rewrite N.iter_succ_r.
    rewrite churn_first.
    rewrite churn_held_iter by (vm_compute; discriminate).
    exists (Db (table fresh_db)
              (Subscription 1 7 9 1 :: Subscription 1 8 10 1 ::
               replicate (MAX_SUBSCRIPTIONS - 2) zero_subscription) 2),
           (Db (table fresh_db)
              (Subscription 1 NULL NULL 0 :: Subscription 1 8 10 1 ::
               replicate (MAX_SUBSCRIPTIONS - 2) zero_subscription) 2),
           (Db (table fresh_db)
              (Subscription 1 NULL NULL 0 :: Subscription 1 NULL NULL 0 ::
               replicate (MAX_SUBSCRIPTIONS - 2) zero_subscription) 2).
    split; [vm_compute; reflexivity|]. split; [vm_compute; reflexivity|].
    split; [vm_compute; reflexivity|]. split; [vm_compute; reflexivity|].
    split; [vm_compute; reflexivity|]. split; [vm_compute; reflexivity|].
    vm_compute. discriminate.
Qed.

Lemma get_not_found_iff_no_live_entry_witness :
  let cs := [Put (Some [x61]) (Some []); Put (Some [x62]) (Some [x01]);
             Subscribe 7 9 (Some 0)] in
  let db := fst (fst (run_api cs (fresh_db, []) (World [] []))) in
  let w := World [] [] in
  let buf := Some [x07; x07] in
  reachable db /\ live db [x61] (Entry [x61] [] 0) /\
  ditto_get (Some db) (Some [x61]) buf (Some 2%nat) = (0, buf, Some 0%nat) /\
  ditto_get (Some db) (Some [x61]) None (Some 2%nat) = (1, None, Some 0%nat) /\
  fst ((r1 <~ ditto_put (Some db) (Some [x61]) (Some [x05; x06]) ;;
        r2 <~ ditto_delete (snd r1) (Some [x61]) ;;
        ret (fst r1, fst r2,
             ditto_get (snd r2) (Some [x61]) buf (Some 2%nat))) w) =
  (0, 0, (2, buf, Some 2%nat)).
Proof.
  intros cs db w buf.
  assert (Hr : reachable db).
  { destruct (run_api_invariant (fun _ => True) (fun _ _ _ => True)
                (fun _ _ _ _ _ _ _ _ _ _ _ => I) cs fresh_db [] (World [] [])
                db [1] (World [] []))
      as [Hr _]; [by apply Forall_true | exact reachable_fresh | done | | done].
    reflexivity. }
  assert (Hl : live db [x61] (Entry [x61] [] 0)).
  { exists (Z.to_nat (hash_string [x61])), [Entry [x61] [] 0].
    split; [reflexivity|]. split; [left | reflexivity]. }
  split; [exact Hr|]. split; [exact Hl|].
  destruct (get_not_found_iff_no_live_entry db [x61] buf 2%nat Hr)
    as (_ & _ & _ & _ & Hbuf & _ & Hgone & Hnull & _).
  split; [exact (Hbuf _ [x07; x07] Hl eq_refl)|].
  split; [exact (Hnull _ Hl eq_refl)|].
  apply Hgone. constructor.
Defined.

(** * Scenarios

    The two walks through the API that the specification lists, run on the
    model. *)

(** put "a" [1,2,3]; get with capacity 2, then 3; delete; get. *)
Example scenario_put_get_delete :
  let w := World [] [] in
  let '((rc_put, db1), w1) :=
    ditto_put (Some fresh_db) (Some [x61]) (Some [x01; x02; x03]) w in
  let small := ditto_get db1 (Some [x61]) (Some [x00; x00]) (Some 2%nat) in
  let exact := ditto_get db1 (Some [x61]) (Some [x00; x00; x00]) (Some 3%nat) in
  let '((rc_del, db2), w2) := ditto_delete db1 (Some [x61]) w1 in
  let gone := ditto_get db2 (Some [x61]) (Some [x00; x00; x00]) (Some 3%nat) in
  rc_put = 0 /\
  small = (1, Some [x00; x00], Some 3%nat) /\
  exact = (0, Some [x01; x02; x03], Some 3%nat) /\
  rc_del = 0 /\
  gone = (2, Some [x00; x00; x00], Some 3%nat).
Proof. vm_compute. repeat split. Qed.

(** Two subscribers; a put notifies both; after [unsubscribe (1)] a delete
    notifies the second only. *)
Example scenario_subscribe_notify :
  let cs := [Subscribe 101 11 (Some 0); Subscribe 102 12 (Some 0);
             Put (Some [x78]) (Some [x2a]); Unsubscribe 1;
             Delete (Some [x78])] in
  let '((db, ids), w) := run_api cs (fresh_db, []) (World [] []) in
  ids = [1; 2] /\
  calls w = [Call 1 101 11 [x78]; Call 2 102 12 [x78]; Call 2 102 12 [x78]].
Proof. vm_compute. repeat split. Qed.

(** * Further properties of the code *)

(** ** The hash *)

Lemma djb2_step_mod b (l : list byte) (m x y : Z) :
  0 < m -> x mod m = y mod m ->
  fold_left (fun hash ch => hash * 33 + char_to_int b ch) l x mod m =
  fold_left (fun hash ch => hash * 33 + char_to_int b ch) l y mod m.
Proof.
  intros Hm. revert x y. induction l as [|c l IH]; intros x y Hxy; [done|].
  simpl. apply IH.
  rewrite (Z.add_mod (x * 33)), (Z.add_mod (y * 33)) by lia.
  rewrite (Z.mul_mod x), (Z.mul_mod y) by lia. by rewrite Hxy.
Qed.

Lemma hash_loop_djb2 b s h :
  0 <= h < 2 ^ 32 ->
  hash_loop b s h =
  fold_left (fun hash ch => hash * 33 + char_to_int b ch) (c_str s) h
    mod 2 ^ 32.
Proof.
  revert h. induction s as [|c s IH]; intros h Hh; simpl.
  - by rewrite Z.mod_small.
  - destruct (Z.eqb_spec (char_to_int b c) 0) as [Hz|Hnz].
    + apply char_to_int_zero in Hz. apply Z.eqb_eq in Hz. rewrite Hz. simpl.
      by rewrite Z.mod_small.
    + destruct (Z.eqb_spec (uchar c) 0) as [Hz|_].
      { by apply (char_to_int_zero b) in Hz. }
      simpl. rewrite IH by (unfold wrap_uint32; apply Z.mod_pos_bound; lia).
      apply djb2_step_mod; [lia|]. unfold wrap_uint32.
      rewrite Z.mod_mod by lia. rewrite Z.shiftl_mul_pow2 by lia.
      rewrite (Z.add_mod_idemp_l _ (char_to_int b c)) by lia.
      rewrite <- Z.add_assoc, Z.add_mod_idemp_l by lia. f_equal. lia.
Qed.

(** X1: the bucket index that [hash_string] returns is within the bucket
    array, [0 <= index < HASH_SIZE], for every string, and it is the same
    whether the target's plain [char] is signed or unsigned. *)
Theorem bucket_index_in_bounds_and_portable b s :
  0 <= hash_string_on b s < HASH_SIZE /\
  hash_string_on b s = hash_string_on (negb b) s.
Proof.
  split.
  - unfold hash_string_on, HASH_SIZE. apply Z.mod_pos_bound. lia.
  - by rewrite !hash_string_signedness.
Qed.

(** X2: [hash_string] reads a string up to its terminator only: two
    strings that [strcmp] finds equal get the same bucket index. *)
Theorem equal_keys_same_bucket b s1 s2 :
  strcmp s1 s2 = 0 -> hash_string_on b s1 = hash_string_on b s2.
Proof.
  intros Heq. rewrite !hash_string_signedness. by apply hash_string_strcmp.
Qed.

Lemma equal_keys_same_bucket_witness :
  strcmp [x61; x62; x00; x7a] [x61; x62] = 0 /\
  hash_string_on true [x61; x62; x00; x7a] = hash_string_on true [x61; x62].
Proof.
  split; [reflexivity|].
  apply (equal_keys_same_bucket true [x61; x62; x00; x7a] [x61; x62]).
  reflexivity.
Defined.

(** X3: the 32-bit value that the loop of [hash_string] accumulates is the
    polynomial [hash * 33 + c] from [5381] over the characters of the
    string, reduced modulo [2 ^ 32], and the bucket index is that polynomial
    modulo [HASH_SIZE]: the shift-and-add and its wrap-around lose
    nothing. *)
Theorem hash_string_is_djb2 b s :
  hash_loop b s 5381 = djb2 b (c_str s) mod 2 ^ 32 /\
  hash_string_on b s = djb2 b (c_str s) mod HASH_SIZE.
Proof.
  assert (H : hash_loop b s 5381 = djb2 b (c_str s) mod 2 ^ 32)
    by (apply hash_loop_djb2; lia).
  split; [done|]. unfold hash_string_on, HASH_SIZE. rewrite H.
  apply mod_2_32_mod_256.
Qed.

(** ** Opening a store *)

Lemma forallb_served (l : list bool) :
  forallb id l = true <-> Forall (fun ok => ok = true) l.
Proof.
  induction l as [|[] l IH]; simpl.
  - split; [constructor | done].
  - rewrite IH. split; [by constructor | by inversion 1].
  - split; [done | by inversion 1].
Qed.

Lemma ditto_open_status p o w :
  fst (ditto_open (Some p) (Some o) w) =
  if forallb id (take 2 (allocs w))
  then (0, Some (Some fresh_db)) else (-1, Some o).
Proof. destruct w as [[|[] [|[] rest]] cs]; reflexivity. Qed.

(** X4: [ditto_open] returns [0] exactly when [path] and [out_db] are not
    [NULL] and the two allocations it makes are served, and [-1] in every
    other case. On [0] the handle points to a store with no entry, no
    active subscription and the id counter at [1]; on [-1] the handle is
    left as it was, and with a [NULL] argument nothing is allocated. *)
Theorem ditto_open_outcome path out_db w :
  let res := ditto_open path out_db w in
  let rc := fst (fst res) in
  (rc = 0 \/ rc = -1) /\
  (rc = 0 <->
   path <> None /\ out_db <> None /\
   Forall (fun ok => ok = true) (take 2 (allocs w))) /\
  (rc = 0 -> snd (fst res) = Some (Some fresh_db)) /\
  (rc = -1 -> snd (fst res) = out_db) /\
  (path = None \/ out_db = None -> snd res = w) /\
  active_subs fresh_db = [] /\ next_sub_id fresh_db = 1 /\
  Forall (fun chain => chain = []) (buckets (table fresh_db)).
Proof.
  assert (Hfresh : active_subs fresh_db = [] /\ next_sub_id fresh_db = 1 /\
            Forall (fun chain => chain = []) (buckets (table fresh_db))).
  { split; [reflexivity|]. split; [reflexivity|]. by apply Forall_replicate. }
  cbv zeta.
  destruct path as [p|]; [destruct out_db as [o|]|].
  - rewrite ditto_open_status, <- forallb_served.
    destruct (forallb id (take 2 (allocs w))); cbn [fst snd].
    + split; [by left|]. split; [done|]. split; [done|]. split; [done|].
      split; [by intros [|]|]. exact Hfresh.
    + split; [by right|]. split; [split; [done | by intros (_ & _ & ?)]|].
      split; [done|]. split; [done|]. split; [by intros [|]|]. exact Hfresh.
  - unfold ditto_open, ret. cbn [fst snd].
    split; [by right|]. split; [split; [done | by intros (_ & ? & _)]|].
    split; [done|]. split; [done|]. split; [done|]. exact Hfresh.
  - unfold ditto_open, ret. cbn [fst snd].
    split; [by right|]. split; [split; [done | by intros (? & _)]|].
    split; [done|]. split; [by destruct out_db|]. split; [by destruct out_db|].
    exact Hfresh.
Qed.

Lemma ditto_open_outcome_witness :
  let res := ditto_open (Some [x64; x62]) (Some None) (World [true; false] []) in
  fst (fst res) = -1 /\ snd (fst res) = Some None.
Proof.
  intros res. split; [reflexivity|].
  by apply (ditto_open_outcome (Some [x64; x62]) (Some None)
              (World [true; false] [])).
Defined.

(** ** What every store of the API satisfies *)






(** ** Keys do not interfere *)

Lemma strcmp_other k K key :
  strcmp k key = 0 -> strcmp key K <> 0 -> strcmp k K <> 0.
Proof.
  intros Hk Hne Heq. apply Hne.
  apply (strcmp_trans _ k); [by apply strcmp_sym | done].
Qed.

Lemma put_chain_other chain key data w chain' w' K :
  put_chain chain key data w = (PutUpdated chain', w') ->
  strcmp key K <> 0 ->
  chain_find chain' K = chain_find chain K.
Proof.
  revert chain' w'. induction chain as [|e next IH]; intros chain' w'; simpl;
    [done|].
  destruct (Z.eqb_spec (strcmp (entry_key e) key) 0) as [Heq|Hne].
  - unfold bind. destruct (alloc w) as [[] w1]; simpl; [|done].
    intros [= <- <-] HK. simpl.
    pose proof (strcmp_other _ _ _ Heq HK) as Hother.
    apply Z.eqb_neq in Hother. by rewrite Hother.
  - unfold bind. destruct (put_chain next key data w) as [[next'| |] w1] eqn:Hp;
      [|done..].
    intros [= <- <-] HK. simpl. rewrite (IH _ _ eq_refl HK). done.
Qed.

Lemma delete_chain_other chain key chain' K :
  delete_chain chain key = Some chain' ->
  strcmp key K <> 0 ->
  chain_find chain' K = chain_find chain K.
Proof.
  revert chain'. induction chain as [|e next IH]; intros chain'; simpl; [done|].
  destruct (Z.eqb_spec (strcmp (entry_key e) key) 0) as [Heq|Hne].
  - intros [= <-] HK. pose proof (strcmp_other _ _ _ Heq HK) as Hother.
    apply Z.eqb_neq in Hother. by rewrite Hother.
  - destruct (delete_chain next key) as [next'|]; [|done].
    intros [= <-] HK. simpl. by rewrite (IH _ eq_refl HK).
Qed.

Lemma bucket_set_bucket_other t idx idx' chain :
  0 <= idx -> 0 <= idx' -> idx <> idx' ->
  bucket (set_bucket t idx chain) idx' = bucket t idx'.
Proof.
  intros H1 H2 Hne. unfold bucket, set_bucket. simpl.
  rewrite list_lookup_insert_ne by lia. done.
Qed.

(** What [set_bucket] changes for the scan of another key. *)
Lemma find_set_bucket t key chain K :
  length (buckets t) = Z.to_nat HASH_SIZE ->
  chain_find chain K = chain_find (bucket t (hash_string key)) K ->
  chain_find (bucket (set_bucket t (hash_string key) chain) (hash_string K)) K =
  chain_find (bucket t (hash_string K)) K.
Proof.
  intros Hlen Hsame.
  pose proof (hash_string_range key). pose proof (hash_string_range K).
  destruct (decide (hash_string key = hash_string K)) as [Heq|Hne].
  - rewrite <- Heq, bucket_set_bucket by by apply hash_index_in_table. done.
  - rewrite bucket_set_bucket_other by lia. done.
Qed.

Lemma hash_table_put_other t key data w rc t' w' K :
  length (buckets t) = Z.to_nat HASH_SIZE ->
  hash_table_put t key data w = ((rc, t'), w') ->
  strcmp key K <> 0 ->
  chain_find (bucket t' (hash_string K)) K =
  chain_find (bucket t (hash_string K)) K.
Proof.
  intros Hlen Hput HK. unfold hash_table_put, bind in Hput.
  destruct (put_chain _ key data w) as [[chain'| |] w1] eqn:Hp.
  - injection Hput as _ <- _. apply find_set_bucket; [done|].
    by apply (put_chain_other _ _ _ _ _ _ _ Hp).
  - by injection Hput as _ <- _.
  - destruct (alloc w1) as [[] w2]; simpl in Hput;
      [|by injection Hput as _ <- _].
    destruct (alloc w2) as [[] w3]; destruct (alloc w3) as [[] w4];
      simpl in Hput; injection Hput as _ <- _; try done.
    apply find_set_bucket; [done|]. simpl.
    pose proof (strcmp_other _ _ _ (strcmp_strdup key) HK) as Hother.
    apply Z.eqb_neq in Hother. by rewrite Hother.
Qed.

Lemma hash_table_delete_other t key rc t' K :
  length (buckets t) = Z.to_nat HASH_SIZE ->
  hash_table_delete t key = (rc, t') ->
  strcmp key K <> 0 ->
  chain_find (bucket t' (hash_string K)) K =
  chain_find (bucket t (hash_string K)) K.
Proof.
  intros Hlen Hdel HK. unfold hash_table_delete in Hdel.
  destruct (delete_chain _ key) as [chain'|] eqn:Hd; injection Hdel as _ <-;
    [|done].
  apply find_set_bucket; [done|]. by apply (delete_chain_other _ _ _ _ Hd).
Qed.

(** One call that is neither a put nor a delete of [K] leaves the scan for
    [K] as it was. *)
Lemma api_step_other K c db ids w db' ids' w' :
  reachable db ->
  ~ touches_key K c ->
  api_step c (db, ids) w = ((db', ids'), w') ->
  chain_find (bucket (table db') (hash_string K)) K =
  chain_find (bucket (table db) (hash_string K)) K.
Proof.
  intros Hr HQ Hstep%api_step_cases.
  destruct (reachable_wf _ Hr) as [[Hlen _] _].
  destruct c as [key data|key out_buf n|key|cb ud out|id].
  - destruct Hstep as (rc & Hp & _). unfold ditto_put in Hp.
    destruct key as [k|]; [destruct data as [v|]|];
      try (by injection Hp as _ <- _).
    unfold bind in Hp.
    destruct (hash_table_put (table db) k v w) as [[rc1 t1] w1] eqn:Hput.
    cbn [fst snd] in Hp. destruct (if rc1 =? 0 then _ else _) as [[] w2].
    injection Hp as _ <- _. cbn [table].
    by apply (hash_table_put_other _ _ _ _ _ _ _ _ Hlen Hput).
  - by destruct Hstep as (-> & _).
  - destruct Hstep as (rc & Hd & _). unfold ditto_delete in Hd.
    destruct key as [k|]; [|by injection Hd as _ <- _].
    unfold bind in Hd.
    destruct (hash_table_delete (table db) k) as [rc1 t1] eqn:Hdel.
    cbn [fst snd] in Hd. destruct (if rc1 =? 0 then _ else _) as [[] w2].
    injection Hd as _ <- _. cbn [table].
    by apply (hash_table_delete_other _ _ _ _ _ Hlen Hdel).
  - destruct Hstep as (rc & out' & Hs & _).
    by apply ditto_subscribe_spec in Hs
      as [(_ & [= <-] & _)|(_ & _ & _ & i & s & _ & _ & _ & [= ->])].
  - destruct Hstep as (rc & Hu & _).
    by apply ditto_unsubscribe_spec in Hu
      as [(_ & [= <-] & _)|(_ & i & s & _ & _ & _ & _ & [= ->])].
Qed.

(** X7: what [get] returns for a key changes only through a put or a delete
    of that key: through any sequence of API calls on other keys, and any
    subscribes and unsubscribes, [get (K)] returns the same status, bytes
    and length as before, whether [K] was stored or absent. *)
Theorem get_unchanged_by_other_keys db K cs ids w db' ids' w' out_buf cap :
  reachable db ->
  Forall (fun c => ~ touches_key K c) cs ->
  run_api cs (db, ids) w = ((db', ids'), w') ->
  ditto_get (Some db') (Some K) out_buf (Some cap) =
  ditto_get (Some db) (Some K) out_buf (Some cap).
Proof.
  intros Hr Hcs Hrun.
  destruct (run_api_invariant (fun c => ~ touches_key K c)
    (fun d _ _ => chain_find (bucket (table d) (hash_string K)) K =
                  chain_find (bucket (table db) (hash_string K)) K))
    with (cs := cs) (db := db) (ids := ids) (w := w)
         (db' := db') (ids' := ids') (w' := w') as [_ H]; try done.
  - intros c d i w0 d' i' w0' HQ Hrd HP Hstep.
    rewrite <- HP. by apply (api_step_other K c d i w0 d' i' w0').
  - by rewrite !ditto_get_find, H.
Qed.

Lemma get_unchanged_by_other_keys_witness :
  let db := default fresh_db
              (snd (fst (ditto_put (Some fresh_db) (Some [x61])
                           (Some [x01; x02; x03]) (World [] [])))) in
  let cs := [Put (Some [x62]) (Some [x09]); Subscribe 7 0 (Some 0);
             Delete (Some [x62]); Put (Some [x63]) (Some [])] in
  let res := run_api cs (db, []) (World [] []) in
  reachable db /\
  ditto_get (Some (fst (fst res))) (Some [x61]) (Some [x00; x00; x00])
    (Some 3%nat) =
  ditto_get (Some db) (Some [x61]) (Some [x00; x00; x00]) (Some 3%nat).
Proof.
  intros db cs res.
  assert (Hr : reachable db).
  { apply (reach_put fresh_db (Some [x61]) (Some [x01; x02; x03])
             (World [] []) 0 db (World [] []) reachable_fresh).
    reflexivity. }
  split; [exact Hr|].
  apply (get_unchanged_by_other_keys db [x61] cs [] (World [] [])
           (fst (fst res)) (snd (fst res)) (snd res) _ _ Hr).
  - repeat constructor; simpl; (discriminate || tauto).
  - reflexivity.
Defined.

(** ** Delete *)

(** X8: in every store of the API, [ditto_delete] with a handle and a key
    returns [0] exactly when an entry of that key is live and [2]
    otherwise, never [-1]; it requests no memory, so it cannot fail for
    lack of it; and once it has returned [0], deleting the same key again
    returns [2] and changes nothing. *)
Theorem delete_outcome db K w rc r w' :
  reachable db ->
  ditto_delete (Some db) (Some K) w = ((rc, r), w') ->
  (rc = 0 <-> exists e, live db K e) /\
  (rc = 2 <-> ~ exists e, live db K e) /\
  allocs w' = allocs w /\
  (rc = 0 -> forall w2, ditto_delete r (Some K) w2 = ((2, r), w2)).
Proof.
  intros Hr Hd. destruct (reachable_wf _ Hr) as [Ht Hs].
  destruct (ditto_delete_spec _ _ _ _ _ _ Hs Hd)
    as (d & -> & _ & _ & Hallocs & Hrc & _ & Hok).
  assert (Hstatus : rc = 2 <-> ~ exists e, live db K e).
  { rewrite (not_live_find _ _ Ht). unfold ditto_delete, bind in Hd.
    destruct (hash_table_delete (table db) K) as [rc1 t1] eqn:Hdel.
    destruct (hash_table_delete_spec _ _ _ _ Hdel) as (_ & _ & Hnf & _).
    cbn [fst snd] in Hd. destruct (if rc1 =? 0 then _ else _) as [[] w2].
    by injection Hd as <- _ _. }
  split; [|split; [done|split; [done|]]].
  - split.
    + intros ->. destruct (chain_find (bucket (table db) (hash_string K)) K)
        as [e|] eqn:Hf.
      * exists e. by apply live_find.
      * apply (not_live_find _ _ Ht) in Hf. apply Hstatus in Hf. done.
    + intros Hlive. destruct Hrc as [|[->| ->]]; [done| |].
      * by apply Hstatus in Hlive.
      * unfold ditto_delete, bind in Hd.
        destruct (hash_table_delete (table db) K) as [rc1 t1] eqn:Hdel.
        destruct (hash_table_delete_spec _ _ _ _ Hdel) as ([|] & _).
        -- cbn [fst snd] in Hd. destruct (if rc1 =? 0 then _ else _) as [[] w2].
           injection Hd as Hrc1 _ _. lia.
        -- cbn [fst snd] in Hd. destruct (if rc1 =? 0 then _ else _) as [[] w2].
           injection Hd as Hrc1 _ _. lia.
  - intros Hz w2. destruct (Hok Hz) as (k & [= <-] & _ & Hwf).
    destruct (Hwf Ht) as [Ht' Hnone].
    unfold ditto_delete, hash_table_delete, bind.
    apply delete_chain_find in Hnone. rewrite Hnone. cbn.
    by destruct d, w2.
Qed.

Lemma delete_outcome_witness :
  let db := default fresh_db
              (snd (fst (ditto_put (Some fresh_db) (Some [x61])
                           (Some [x01; x02; x03]) (World [] [])))) in
  let res := ditto_delete (Some db) (Some [x61]) (World [] []) in
  reachable db /\ fst (fst res) = 0 /\
  ditto_delete (snd (fst res)) (Some [x61]) (World [false] []) =
  ((2, snd (fst res)), World [false] []).
Proof.
  intros db res.
  assert (Hr : reachable db).
  { apply (reach_put fresh_db (Some [x61]) (Some [x01; x02; x03])
             (World [] []) 0 db (World [] []) reachable_fresh).
    reflexivity. }
  split; [exact Hr|]. split; [reflexivity|].
  destruct (delete_outcome db [x61] (World [] []) (fst (fst res))
              (snd (fst res)) (snd res) Hr eq_refl) as (_ & _ & _ & Hagain).
  apply Hagain. reflexivity.
Defined.

(** ** The two-call protocol of get *)

(** X9: in every store of the API, when a size query ([get] with a [NULL]
    buffer) reports the length [n] for a key, a [get] of that key into a
    buffer of [n] bytes with capacity [n] returns [0], the length [n] and
    the buffer holding exactly the stored value. *)
Theorem size_query_then_fetch db K cap n buf :
  reachable db ->
  ditto_get (Some db) (Some K) None (Some cap) = (1, None, Some n) ->
  length buf = n ->
  exists e, live db K e /\
    ditto_get (Some db) (Some K) (Some buf) (Some n) =
    (0, Some (entry_data e), Some n).
Proof.
  intros Hr Hq Hbuf. destruct (reachable_wf _ Hr) as [Ht _].
  rewrite ditto_get_find in Hq.
  destruct (chain_find _ K) as [e|] eqn:Hf; [|done].
  injection Hq as <-. pose proof Hf as Hlive. apply live_find in Hlive; [|done].
  exists e. split; [done|]. rewrite ditto_get_find, Hf, Nat.ltb_irrefl.
  rewrite (live_len _ _ _ Ht Hlive) in *. rewrite memcpy_all.
  by rewrite drop_ge, app_nil_r by lia.
Qed.

Lemma size_query_then_fetch_witness :
  let db := default fresh_db
              (snd (fst (ditto_put (Some fresh_db) (Some [x61])
                           (Some [x01; x02; x03]) (World [] [])))) in
  reachable db /\
  ditto_get (Some db) (Some [x61]) None (Some 0%nat) = (1, None, Some 3%nat) /\
  exists e, live db [x61] e /\
    ditto_get (Some db) (Some [x61]) (Some [x00; x00; x00]) (Some 3%nat) =
    (0, Some (entry_data e), Some 3%nat).
Proof.
  intros db.
  assert (Hr : reachable db).
  { apply (reach_put fresh_db (Some [x61]) (Some [x01; x02; x03])
             (World [] []) 0 db (World [] []) reachable_fresh).
    reflexivity. }
  split; [exact Hr|]. split; [reflexivity|].
  apply (size_query_then_fetch db [x61] 0%nat 3%nat [x00; x00; x00] Hr);
    reflexivity.
Defined.

(** X10: in every store of the API, a [get] that returns [0] into a buffer
    that really has the stated capacity writes the stored value at the
    start of the buffer and nothing else: the reported length is at most
    the capacity, the bytes past it are as before and the buffer keeps its
    length. *)
Theorem get_writes_only_the_value db K buf cap buf' n :
  reachable db ->
  (cap <= length buf)%nat ->
  ditto_get (Some db) (Some K) (Some buf) (Some cap) = (0, Some buf', Some n) ->
  (n <= cap)%nat /\
  length buf' = length buf /\
  drop n buf' = drop n buf /\
  exists e, live db K e /\ take n buf' = entry_data e.
Proof.
  intros Hr Hcap Hg. destruct (reachable_wf _ Hr) as [Ht _].
  rewrite ditto_get_find in Hg.
  destruct (chain_find _ K) as [e|] eqn:Hf; [|done].
  pose proof Hf as Hlive. apply live_find in Hlive; [|done].
  pose proof (live_len _ _ _ Ht Hlive) as Hlen.
  destruct (Nat.ltb_spec cap (entry_len e)) as [|Hge]; [done|].
  injection Hg as <- <-. rewrite Hlen in *. rewrite memcpy_all.
  split; [done|]. split; [|split].
  - rewrite length_app, length_drop. lia.
  - by rewrite drop_app_length.
  - exists e. split; [done|]. by rewrite take_app_length.
Qed.

Lemma get_writes_only_the_value_witness :
  let db := default fresh_db
              (snd (fst (ditto_put (Some fresh_db) (Some [x61])
                           (Some [x01; x02]) (World [] [])))) in
  let buf := [x07; x07; x07; x07] in
  reachable db /\
  ditto_get (Some db) (Some [x61]) (Some buf) (Some 3%nat) =
    (0, Some [x01; x02; x07; x07], Some 2%nat) /\
  drop 2 [x01; x02; x07; x07] = drop 2 buf.
Proof.
  intros db buf.
  assert (Hr : reachable db).
  { apply (reach_put fresh_db (Some [x61]) (Some [x01; x02])
             (World [] []) 0 db (World [] []) reachable_fresh).
    reflexivity. }
  split; [exact Hr|]. split; [reflexivity|].
  destruct (get_writes_only_the_value db [x61] buf 3%nat [x01; x02; x07; x07]
              2%nat Hr) as (_ & _ & Hrest & _); [simpl; lia | reflexivity|].
  exact Hrest.
Defined.

(** ** Subscribe and unsubscribe *)

(** X11: [ditto_unsubscribe] on a store returns [0] exactly when an active
    subscription carries the id and [-1] otherwise (an id found only in a
    cleared slot, such as [0] on a store just opened, is not found). It
    leaves the table and the id counter as they are, and on [0] it removes
    one active subscription and no more. *)
Theorem unsubscribe_outcome db id rc r :
  ditto_unsubscribe (Some db) id = (rc, r) ->
  (rc = 0 \/ rc = -1) /\
  (rc = 0 <-> exists s, s ∈ active_subs db /\ sub_id s = id) /\
  exists db', r = Some db' /\
    table db' = table db /\ next_sub_id db' = next_sub_id db /\
    (rc = 0 -> S (length (active_subs db')) = length (active_subs db)).
Proof.
  intros Hu. pose proof Hu as Hspec.
  apply ditto_unsubscribe_spec in Hspec
    as [(-> & -> & Hnone)|(-> & i & s & Hl & Ha & Hid & _ & ->)].
  - split; [by right|]. split.
    + split; [done|]. intros (s & Hin & Hs).
      apply list_elem_of_filter in Hin as [Ha Hin].
      rewrite Forall_forall in Hnone. by destruct (Hnone s Hin).
    + by exists db.
  - split; [by left|]. split.
    + split; [|done]. intros _. exists s. split; [|done].
      apply list_elem_of_filter. split; [done|].
      by eapply list_elem_of_lookup_2.
    + eexists. split; [done|]. split; [done|]. split; [done|]. intros _.
      destruct (unsubscribe_active_subs _ _ _ Hu)
        as (before & s' & after & _ & -> & ->).
      rewrite !length_app. simpl. lia.
Qed.

Lemma unsubscribe_outcome_witness :
  let res := ditto_unsubscribe (Some fresh_db) 0 in
  fst res = -1 /\ ~ exists s, s ∈ active_subs fresh_db /\ sub_id s = 0.
Proof.
  intros res. split; [reflexivity|].
  destruct (unsubscribe_outcome fresh_db 0 (fst res) (snd res) eq_refl)
    as (_ & Hiff & _).
  intros Hex. apply Hiff in Hex. discriminate Hex.
Defined.

(** X12: a [ditto_subscribe] that returns [0] hands out the value of the id
    counter, leaves the table as it is and disturbs no subscriber: every
    fan-out afterwards is the one of before with one call for the new
    subscription, with the callback and context just given, inserted at its
    slot. *)
Theorem subscribe_keeps_subscribers db cb user_data out db' out' key :
  ditto_subscribe (Some db) cb user_data out = (0, Some db', out') ->
  out' = Some (next_sub_id db) /\
  table db' = table db /\
  exists before after,
    fan_out db key = before ++ after /\
    fan_out db' key =
      before ++ Call (next_sub_id db) cb user_data key :: after.
Proof.
  intros Hs.
  destruct (subscribe_active_subs _ _ _ _ _ _ Hs)
    as (before & after & Hold & Hnew).
  apply ditto_subscribe_spec in Hs
    as [(? & _)|(_ & _ & -> & i & s & _ & _ & _ & [= ->])]; [done|].
  split; [done|]. split; [done|].
  exists (call_of key <$> before), (call_of key <$> after).
  unfold fan_out. by rewrite Hold, Hnew, !fmap_app, fmap_cons.
Qed.

Lemma subscribe_keeps_subscribers_witness :
  let db := default fresh_db
              (snd (fst (ditto_subscribe (Some fresh_db) 7 9 (Some 0)))) in
  let res := ditto_subscribe (Some db) 8 10 (Some 0) in
  fst (fst res) = 0 /\ snd res = Some (next_sub_id db).
Proof.
  intros db res. split; [reflexivity|].
  by destruct (subscribe_keeps_subscribers db 8 10 (Some 0)
                 (default db (snd (fst res))) (snd res) [x61] eq_refl)
    as (Hout & _).
Defined.

(** ** The two halves of a store do not interfere *)

(** X14: through any sequence of calls that makes no subscribe and no
    unsubscribe, the slot table and the id counter stay as they are, and
    no id is handed out; through any sequence that makes no put and no
    delete, the table stays as it is, no callback is invoked and no memory
    is requested. *)
Theorem table_and_registry_independent db cs ids w db' ids' w' :
  reachable db ->
  run_api cs (db, ids) w = ((db', ids'), w') ->
  (Forall (fun c => ~ registry_call c) cs ->
   subscriptions db' = subscriptions db /\
   next_sub_id db' = next_sub_id db /\ ids' = ids) /\
  (Forall (fun c => ~ table_call c) cs ->
   table db' = table db /\ w' = w).
Proof.
  intros Hr Hrun. split; intros Hcs.
  - destruct (run_api_invariant (fun c => ~ registry_call c)
      (fun d i _ => subscriptions d = subscriptions db /\
                    next_sub_id d = next_sub_id db /\ i = ids))
      with (cs := cs) (db := db) (ids := ids) (w := w)
           (db' := db') (ids' := ids') (w' := w') as [_ H]; try done.
    intros c d i w0 d' i' w0' HQ Hrd (Hsubs & Hnext & ->) Hstep%api_step_cases.
    destruct (reachable_wf _ Hrd) as [_ Hs].
    destruct c as [key data|key out_buf n|key|cb ud out|id];
      [| |
       |by destruct HQ|by destruct HQ].
    + destruct Hstep as (rc & Hp & ->).
      destruct (ditto_put_spec _ _ _ _ _ _ _ Hs Hp)
        as (d0 & [= <-] & -> & -> & _).
      done.
    + by destruct Hstep as (-> & -> & _).
    + destruct Hstep as (rc & Hd & ->).
      destruct (ditto_delete_spec _ _ _ _ _ _ Hs Hd)
        as (d0 & [= <-] & -> & -> & _).
      done.
  - destruct (run_api_invariant (fun c => ~ table_call c)
      (fun d _ w0 => table d = table db /\ w0 = w))
      with (cs := cs) (db := db) (ids := ids) (w := w)
           (db' := db') (ids' := ids') (w' := w') as [_ H]; try done.
    intros c d i w0 d' i' w0' HQ Hrd (Ht & ->) Hstep%api_step_cases.
    destruct c as [key data|key out_buf n|key|cb ud out|id];
      [by destruct HQ| |by destruct HQ| |].
    + by destruct Hstep as (-> & _ & ->).
    + destruct Hstep as (rc & out' & Hsub & -> & _). split; [|done].
      by apply ditto_subscribe_spec in Hsub
        as [(_ & [= <-] & _)|(_ & _ & _ & j & s & _ & _ & _ & [= ->])].
    + destruct Hstep as (rc & Hu & -> & _). split; [|done].
      by apply ditto_unsubscribe_spec in Hu
        as [(_ & [= <-] & _)|(_ & j & s & _ & _ & _ & _ & [= ->])].
Qed.

Lemma table_and_registry_independent_witness :
  let cs := [Put (Some [x61]) (Some [x01]); Get (Some [x61]) None (Some 0%nat);
             Delete (Some [x61])] in
  let res := run_api cs (fresh_db, []) (World [] []) in
  subscriptions (fst (fst res)) = subscriptions fresh_db /\
  next_sub_id (fst (fst res)) = next_sub_id fresh_db /\
  snd (fst res) = [].
Proof.
  intros cs res.
  destruct (table_and_registry_independent fresh_db cs [] (World [] [])
              (fst (fst res)) (snd (fst res)) (snd res) reachable_fresh
              eq_refl) as [Hreg _].
  apply Hreg. repeat constructor; simpl; tauto.
Defined.

(** ** Memory that a put needs *)

Lemma alloc_head w :
  alloc w =
  (bool_decide (head (allocs w) <> Some false),
   World (tail (allocs w)) (calls w)).
Proof.
  unfold alloc. by destruct w as [[|[] rest] cs].
Qed.

Lemma put_chain_found chain key data w e :
  chain_find chain key = Some e ->
  exists chain',
    put_chain chain key data w =
    (if fst (alloc w) then PutUpdated chain' else PutNoMemory, snd (alloc w)) /\
    length chain' = length chain.
Proof.
  induction chain as [|e' next IH]; simpl; [done|].
  destruct (Z.eqb_spec (strcmp (entry_key e') key) 0) as [Heq|Hne].
  - intros _. unfold bind.
    exists (Entry (entry_key e') data (length data) :: next).
    by destruct (alloc w) as [[] w1].
  - intros Hf. destruct (IH Hf) as (next' & Hp & Hlen). unfold bind.
    rewrite Hp. exists (e' :: next'). destruct (alloc w) as [[] w1]; simpl;
      by rewrite ?Hlen.
Qed.

Lemma put_chain_absent chain key data w :
  chain_find chain key = None -> put_chain chain key data w = (PutAbsent, w).
Proof.
  induction chain as [|e next IH]; simpl; [done|].
  destruct (strcmp (entry_key e) key =? 0); [done|].
  intros Hf. unfold bind. by rewrite (IH Hf).
Qed.

Lemma ditto_put_status db K V w :
  fst (fst (ditto_put (Some db) (Some K) (Some V) w)) =
    fst (fst (hash_table_put (table db) K V w)) /\
  allocs (snd (ditto_put (Some db) (Some K) (Some V) w)) =
    allocs (snd (hash_table_put (table db) K V w)) /\
  snd (fst (ditto_put (Some db) (Some K) (Some V) w)) =
    Some (Db (snd (fst (hash_table_put (table db) K V w)))
             (subscriptions db) (next_sub_id db)).
Proof.
  unfold ditto_put, bind.
  destruct (hash_table_put (table db) K V w) as [[rc t] w1]. cbn [fst snd].
  destruct (rc =? 0); [|done].
  unfold notify_subscribers. by rewrite notify_loop_calls.
Qed.

Lemma hash_table_put_new_status t key data w :
  chain_find (bucket t (hash_string key)) key = None ->
  fst (fst (hash_table_put t key data w)) =
  if forallb id (take 3 (allocs w)) then 0 else -1.
Proof.
  intros Hf. unfold hash_table_put, bind. rewrite (put_chain_absent _ _ _ _ Hf).
  by destruct w as [[|[] [|[] [|[] rest]]] cs].
Qed.

(** X15: in every store of the API, a put of a key that is stored makes one
    allocation and returns [0] exactly when it is served; a put of a key
    that is not stored needs three (the entry, the copy of the key, the
    copy of the value) and returns [0] exactly when all three are served. *)
Theorem put_needs_one_or_three_allocations db K V w :
  reachable db ->
  let res := ditto_put (Some db) (Some K) (Some V) w in
  ((exists e, live db K e) ->
   (fst (fst res) = 0 <-> head (allocs w) <> Some false) /\
   allocs (snd res) = tail (allocs w)) /\
  ((~ exists e, live db K e) ->
   (fst (fst res) = 0 <->
    Forall (fun ok => ok = true) (take 3 (allocs w)))).
Proof.
  intros Hr. destruct (reachable_wf _ Hr) as [Ht _]. cbv zeta.
  destruct (ditto_put_status db K V w) as (-> & -> & _). split.
  - intros [e He]. apply (live_find _ _ _ Ht) in He.
    unfold hash_table_put, bind.
    destruct (put_chain_found _ _ V w _ He) as (chain' & -> & _).
    rewrite alloc_head. cbn [fst snd].
    destruct (bool_decide_reflect (head (allocs w) <> Some false)) as [Hh|Hh];
      cbn [fst snd allocs]; (split; [|done]).
    + done.
    + split; [done|]. intros H. by destruct Hh.
  - intros Hn. apply (not_live_find _ _ Ht) in Hn.
    rewrite (hash_table_put_new_status _ _ _ _ Hn), <- forallb_served.
    by destruct (forallb id (take 3 (allocs w))).
Qed.

Lemma put_needs_one_or_three_allocations_witness :
  let res := ditto_put (Some fresh_db) (Some [x61]) (Some [x01])
               (World [true; true; false] []) in
  fst (fst res) = -1 /\ ~ Forall (fun ok => ok = true) [true; true; false].
Proof.
  intros res. split; [reflexivity|].
  destruct (put_needs_one_or_three_allocations fresh_db [x61] [x01]
              (World [true; true; false] []) reachable_fresh) as [_ Hnew].
  intros Hall. apply Hnew in Hall; [discriminate Hall|].
  intros (e & idx & chain & Hl & Hin & _).
  apply lookup_replicate in Hl as [-> _]. by apply elem_of_nil in Hin.
Defined.

(** ** The number of entries *)

Lemma concat_insert_length {A} (l : list (list A)) i c c' :
  l !! i = Some c ->
  (length (concat (<[i:=c']> l)) + length c =
   length (concat l) + length c')%nat.
Proof.
  intros Hl. rewrite insert_take_drop by by eapply lookup_lt_Some.
  rewrite <- (take_drop_middle l i c Hl) at 3.
  rewrite !concat_app, !concat_cons, !length_app. lia.
Qed.

Lemma bucket_lookup t key :
  length (buckets t) = Z.to_nat HASH_SIZE ->
  buckets t !! Z.to_nat (hash_string key) = Some (bucket t (hash_string key)).
Proof.
  intros Hlen. unfold bucket.
  destruct (lookup_lt_is_Some_2 (buckets t) (Z.to_nat (hash_string key)))
    as [chain Hl]; [by apply hash_index_in_table|].
  by rewrite Hl.
Qed.

Lemma delete_chain_length chain key chain' :
  delete_chain chain key = Some chain' -> length chain = S (length chain').
Proof.
  revert chain'. induction chain as [|e next IH]; intros chain'; simpl; [done|].
  destruct (strcmp (entry_key e) key =? 0); [by intros [= ->]|].
  destruct (delete_chain next key) as [next'|]; [|done].
  intros [= <-]. simpl. by rewrite (IH next').
Qed.

(** X16: in every store of the API, a successful put of a key that is
    stored replaces the value in its entry (the entry keeps its key and
    holds the new value and its length) and the number of entries stays
    the same; a successful put of a key that is not stored adds exactly one
    entry; either way the key then has one entry, which holds the value
    put. A successful delete removes exactly one entry and leaves none of
    that key. *)
Theorem entry_count_changes db K :
  reachable db ->
  (forall V w db' w',
     ditto_put (Some db) (Some K) (Some V) w = ((0, Some db'), w') ->
     ((exists e, live db K e) -> entry_count db' = entry_count db) /\
     ((~ exists e, live db K e) -> entry_count db' = S (entry_count db)) /\
     (forall e, live db K e ->
        live db' K (Entry (entry_key e) V (length V))) /\
     (exists e', live db' K e') /\
     (forall e', live db' K e' ->
        entry_data e' = V /\ entry_len e' = length V)) /\
  (forall w db' w',
     ditto_delete (Some db) (Some K) w = ((0, Some db'), w') ->
     S (entry_count db') = entry_count db /\ ~ exists e, live db' K e).
Proof.
  intros Hr. destruct (reachable_wf _ Hr) as [Ht Hs].
  pose proof (bucket_lookup (table db) K (proj1 Ht)) as Hbucket.
  split.
  - intros V w db' w' Hp.
    assert (Hr' : reachable db') by (by eapply reach_put).
    destruct (reachable_wf _ Hr') as [Ht' _].
    destruct (ditto_put_spec _ _ _ _ _ _ _ Hs Hp)
      as (d & [= <-] & _ & _ & _ & _ & Hok).
    destruct (Hok eq_refl) as (k & v & [= <-] & [= <-] & _ & _ & Hfind).
    destruct (Hfind (proj1 Ht)) as [k' Hnew]. clear Hok Hfind.
    destruct (ditto_put_status db K V w) as (Hrc & _ & Hdb).
    rewrite Hp in Hrc, Hdb. cbn [fst snd] in Hrc, Hdb.
    injection Hdb as Hdb.
    split; [|split; [|split; [|split]]].
    + subst db'. unfold entry_count. cbn [table].
      unfold hash_table_put, bind in *.
      intros [e He]. apply (live_find _ _ _ Ht) in He.
      destruct (put_chain_found _ _ V w _ He) as (chain' & Hpc & Hlen).
      rewrite Hpc in *. destruct (fst (alloc w)); cbn [fst snd] in *; [|done].
      pose proof (concat_insert_length _ _ _ chain' Hbucket).
      unfold ret, set_bucket. cbn [fst snd buckets]. lia.
    + subst db'. unfold entry_count. cbn [table].
      unfold hash_table_put, bind in *.
      intros Hn. apply (not_live_find _ _ Ht) in Hn.
      rewrite (put_chain_absent _ _ _ _ Hn) in *.
      destruct (alloc w) as [[] w1]; cbn [fst snd negb] in *; [|done].
      destruct (alloc w1) as [[] w2]; destruct (alloc w2) as [[] w3];
        cbn [fst snd negb orb] in *; try done.
      pose proof (concat_insert_length _ _ _
        (Entry (strdup K) V (length V) :: bucket (table db) (hash_string K))
        Hbucket) as Hc.
      unfold ret, set_bucket. cbn [fst snd buckets]. cbn [length] in Hc. lia.
    + intros e He. apply (live_find _ _ _ Ht) in He.
      apply (live_find _ _ _ Ht'). rewrite Hnew. do 2 f_equal.
      subst db'. cbn [table] in Hnew. unfold hash_table_put, bind in Hnew, Hrc.
      destruct (put_chain (bucket (table db) (hash_string K)) K V w)
        as [r w1] eqn:Hpc.
      destruct (put_chain_cases _ _ _ _ _ _ Hpc) as [_ Hcase].
      destruct r as [chain'| |]; [|done|congruence].
      destruct Hcase as ((e0 & Hf0 & Hf') & _ & _).
      cbn [fst snd ret] in Hnew.
      rewrite bucket_set_bucket in Hnew
        by (by apply hash_index_in_table, Ht).
      congruence.
    + exists (Entry k' V (length V)). by apply (live_find _ _ _ Ht').
    + intros e' He'. apply (live_find _ _ _ Ht') in He'.
      rewrite Hnew in He'. by injection He' as <-.
  - intros w db' w' Hd. split.
    + unfold ditto_delete, bind in Hd.
      destruct (hash_table_delete (table db) K) as [rc1 t1] eqn:Hdel.
      cbn [fst snd] in Hd. destruct (if rc1 =? 0 then _ else _) as [[] w2].
      injection Hd as -> <- _. unfold entry_count. cbn [table].
      unfold hash_table_delete in Hdel.
      destruct (delete_chain _ K) as [chain'|] eqn:Hdc; [|done].
      injection Hdel as <-. apply delete_chain_length in Hdc.
      pose proof (concat_insert_length _ _ _ chain' Hbucket).
      unfold set_bucket. cbn [buckets]. lia.
    + destruct (ditto_delete_spec _ _ _ _ _ _ Hs Hd)
        as (d & [= <-] & _ & _ & _ & _ & _ & Hok).
      destruct (Hok eq_refl) as (k & [= <-] & _ & Hwf).
      destruct (Hwf Ht) as [Ht' Hnone]. by apply not_live_find.
Qed.

Lemma entry_count_changes_witness :
  let db := default fresh_db
              (snd (fst (ditto_put (Some fresh_db) (Some [x61])
                           (Some [x01; x02; x03]) (World [] [])))) in
  let res := ditto_put (Some db) (Some [x61]) (Some [x09]) (World [] []) in
  let db' := default db (snd (fst res)) in
  let res' := ditto_delete (Some db') (Some [x61]) (World [] []) in
  let db'' := default db' (snd (fst res')) in
  reachable db /\ live db [x61] (Entry [x61] [x01; x02; x03] 3) /\
  fst (fst res) = 0 /\ entry_count db' = entry_count db /\
  live db' [x61] (Entry [x61] [x09] 1) /\
  (forall e', live db' [x61] e' -> entry_data e' = [x09]) /\
  fst (fst res') = 0 /\ S (entry_count db'') = entry_count db' /\
  ~ exists e, live db'' [x61] e.
Proof.
  intros db res db' res' db''.
  assert (Hr : reachable db).
  { apply (reach_put fresh_db (Some [x61]) (Some [x01; x02; x03])
             (World [] []) 0 db (World [] []) reachable_fresh).
    reflexivity. }
  assert (Hr' : reachable db').
  { apply (reach_put db (Some [x61]) (Some [x09]) (World [] []) 0 db'
             (World [] []) Hr).
    reflexivity. }
  assert (Hl : live db [x61] (Entry [x61] [x01; x02; x03] 3)).
  { exists (Z.to_nat (hash_string [x61])), [Entry [x61] [x01; x02; x03] 3].
    split; [reflexivity|]. split; [left | reflexivity]. }
  split; [exact Hr|]. split; [exact Hl|]. split; [reflexivity|].
  destruct (entry_count_changes db [x61] Hr) as [Hput _].
  destruct (Hput [x09] (World [] []) db' (snd res) eq_refl)
    as (Hsame & _ & Hval & _ & Hone).
  split; [exact (Hsame (ex_intro _ _ Hl))|].
  split; [exact (Hval _ Hl)|].
  split; [intros e' He'; exact (proj1 (Hone e' He'))|].
  split; [reflexivity|].
  destruct (entry_count_changes db' [x61] Hr') as [_ Hdel].
  exact (Hdel (World [] []) db'' (snd res') eq_refl).
Defined.

(** ** Argument checks of get and delete *)

(** X17: [ditto_get] returns [-1] exactly when the handle, the key or the
    length pointer is [NULL] (a [NULL] buffer is not an error), and
    otherwise [0], [1] or [2]; [ditto_delete] returns [-1] exactly when the
    handle or the key is [NULL], and otherwise [0] or [2]. A call that
    returns [-1] has touched neither its arguments nor the world. *)
Theorem get_delete_argument_errors :
  (forall db key out_buf n,
     let res := ditto_get db key out_buf n in
     let rc := fst (fst res) in
     (rc = -1 \/ rc = 0 \/ rc = 1 \/ rc = 2) /\
     (rc = -1 <-> db = None \/ key = None \/ n = None) /\
     (rc = -1 -> res = (-1, out_buf, n))) /\
  (forall db key w,
     let res := ditto_delete db key w in
     let rc := fst (fst res) in
     (rc = -1 \/ rc = 0 \/ rc = 2) /\
     (rc = -1 <-> db = None \/ key = None) /\
     (rc = -1 -> res = ((-1, db), w))).
Proof.
  split.
  - intros [d|] [k|] out_buf [n|]; cbv zeta;
      try (cbn; split; [by left|]; split; [split; by auto|]; done).
    rewrite ditto_get_find. destruct (chain_find _ k) as [e|].
    + destruct out_buf as [buf|]; [destruct (n <? entry_len e)%nat|];
        cbn [fst snd];
        (split; [by auto|]; split; [split; [done | by intros [|[|]]]|]; done).
    + cbn [fst snd].
      split; [by auto|]. split; [split; [done | by intros [|[|]]]|]. done.
  - intros [d|] [k|] w; cbv zeta;
      try (cbn; split; [by left|]; split; [split; by auto|]; done).
    destruct (ditto_delete (Some d) (Some k) w) as [[rc r] w'] eqn:Hd.
    cbn [fst snd].
    assert (Hrc : rc = 0 \/ rc = 2).
    { unfold ditto_delete, bind in Hd.
      destruct (hash_table_delete (table d) k) as [rc1 t1] eqn:Hdel.
      destruct (hash_table_delete_spec _ _ _ _ Hdel) as (H & _).
      cbn [fst snd] in Hd. destruct (if rc1 =? 0 then _ else _) as [[] w2].
      by injection Hd as <- _ _. }
    split; [by auto|]. split; [|by intros ->; destruct Hrc].
    split; [by intros ->; destruct Hrc | by intros [|]].
Qed.

Lemma get_delete_argument_errors_witness :
  ditto_get (Some fresh_db) None (Some [x00]) (Some 1%nat) =
  (-1, Some [x00], Some 1%nat).
Proof.
  destruct get_delete_argument_errors as [Hget _].
  apply (Hget (Some fresh_db) None (Some [x00]) (Some 1%nat)). reflexivity.
Defined.

(** ** Putting the same value again *)

Lemma put_chain_same chain key w e :
  chain_find chain key = Some e ->
  entry_len e = length (entry_data e) ->
  fst (alloc w) = true ->
  put_chain chain key (entry_data e) w = (PutUpdated chain, snd (alloc w)).
Proof.
  intros Hf Hlen Hok. induction chain as [|e' next IH]; simpl in *; [done|].
  destruct (strcmp (entry_key e') key =? 0).
  - injection Hf as ->. unfold bind. destruct (alloc w) as [ok w1].
    simpl in Hok. subst ok. simpl. rewrite <- Hlen. by destruct e.
  - unfold bind. by rewrite (IH Hf).
Qed.

(** X18: in every store of the API, a put of the value that the key already
    holds succeeds when its one allocation is served and leaves the store
    exactly as it was; the subscribers are notified all the same. *)
Theorem put_same_value_keeps_store db K e w rc r w' :
  reachable db ->
  live db K e ->
  head (allocs w) <> Some false ->
  ditto_put (Some db) (Some K) (Some (entry_data e)) w = ((rc, r), w') ->
  rc = 0 /\ r = Some db /\ calls w' = calls w ++ fan_out db K.
Proof.
  intros Hr Hlive Hok Hp. destruct (reachable_wf _ Hr) as [Ht Hs].
  pose proof (live_len _ _ _ Ht Hlive) as Hlen.
  pose proof (bucket_lookup (table db) K (proj1 Ht)) as Hbucket.
  apply (live_find _ _ _ Ht) in Hlive.
  assert (Halloc : fst (alloc w) = true).
  { rewrite alloc_head. cbn [fst]. by apply bool_decide_eq_true. }
  unfold ditto_put, hash_table_put, bind in Hp.
  rewrite (put_chain_same _ _ w _ Hlive Hlen Halloc) in Hp.
  unfold ret in Hp at 1. cbn [fst snd Z.eqb] in Hp.
  rewrite notify_subscribers_calls in Hp by done.
  injection Hp as <- <- <-. split; [done|]. split.
  - f_equal. unfold set_bucket. rewrite list_insert_id by done.
    by destruct db as [[bs] subs next].
  - cbn [calls]. by rewrite (alloc_calls _ _ _ (surjective_pairing (alloc w))).
Qed.

Lemma put_same_value_keeps_store_witness :
  let db := default fresh_db
              (snd (fst (ditto_put (Some fresh_db) (Some [x61])
                           (Some [x01; x02; x03]) (World [] [])))) in
  let e := Entry [x61] [x01; x02; x03] 3 in
  let res := ditto_put (Some db) (Some [x61]) (Some (entry_data e))
               (World [true] []) in
  reachable db /\ live db [x61] e /\ snd (fst res) = Some db.
Proof.
  intros db e res.
  assert (Hr : reachable db).
  { apply (reach_put fresh_db (Some [x61]) (Some [x01; x02; x03])
             (World [] []) 0 db (World [] []) reachable_fresh).
    reflexivity. }
  assert (Hl : live db [x61] e).
  { exists (Z.to_nat (hash_string [x61])), [e].
    split; [reflexivity|]. split; [left | reflexivity]. }
  split; [exact Hr|]. split; [exact Hl|].
  destruct (put_same_value_keeps_store db [x61] e (World [true] [])
              (fst (fst res)) (snd (fst res)) (snd res) Hr Hl)
    as (_ & Hsame & _); [discriminate | reflexivity | exact Hsame].
Defined.
